(** * Drone route optimisation: a shallow embedding of [code.py]

    The script reads orders and a drone fleet, enumerates every ordered
    route over every non-empty subset of the orders, evaluates each route
    against every available drone, enumerates the fleet-wide assignments
    and selects one.  The embedding follows the script top to bottom and
    keeps its names.

    Numbers: the JSON numbers are taken to be integers ([Z], no overflow).
    Quotients are exact rationals; what numpy and pandas return on a zero
    divisor (an infinity or NaN, with a warning, not an exception) is
    modelled by [np.float64].

    Frames: a [DataFrame] is the list of its rows.  A frame built from an
    empty list of records has no columns at all, so selecting a column
    from it raises [KeyError]; the places where the script does that are
    marked. *)

From Stdlib Require Import ZArith QArith Lia.
From stdpp Require Import base list gmap sets strings sorting.

Close Scope Q_scope.
Local Open Scope nat_scope.

(** ** Python exceptions *)

Inductive exn := KeyError | IndexError | ValueError.

Inductive pyresult (A : Type) :=
| Ok (a : A)
| Raise (e : exn).
Arguments Ok {A} a.
Arguments Raise {A} e.

#[global] Instance pyresult_ret : MRet pyresult := λ A a, Ok a.
#[global] Instance pyresult_bind : MBind pyresult := λ A B f m,
  match m with
  | Ok a => f a
  | Raise e => Raise e
  end.

Definition raises {A} (m : pyresult A) : Prop := ∃ e, m = Raise e.

(** ** numpy scalars *)

Module np.

(** The value of a true division: a rational, an infinity or NaN. *)
Inductive float64 :=
| Finite (q : Q)
| PosInf
| NegInf
| NaN.

(** [a / b] when [a] is a numpy scalar or a pandas column.  The script's
    distances are numpy scalars (they are read with [.values[0]] and only
    added and passed through [abs]), so a zero divisor raises nothing: the
    quotient is [inf], [-inf] or [nan] by the sign of the dividend. *)
Definition truediv (a b : Z) : float64 :=
  if (b =? 0)%Z then
    if (a =? 0)%Z then NaN
    else if (0 <? a)%Z then PosInf else NegInf
  else Finite (inject_Z a / inject_Z b)%Q.

(** [t >= f] for an integer [t]; every comparison with NaN is false. *)
Definition ge (t : Z) (f : float64) : bool :=
  match f with
  | Finite q => Qle_bool q (inject_Z t)
  | PosInf => false
  | NegInf => true
  | NaN => false
  end.

Definition add (a b : float64) : float64 :=
  match a, b with
  | NaN, _ | _, NaN => NaN
  | PosInf, NegInf | NegInf, PosInf => NaN
  | PosInf, _ | _, PosInf => PosInf
  | NegInf, _ | _, NegInf => NegInf
  | Finite p, Finite q => Finite (p + q)%Q
  end.

Definition isnan (a : float64) : bool :=
  match a with NaN => true | _ => false end.

(** The order sorting and [nsmallest] use: ascending, NaN last. *)
Definition leb (a b : float64) : bool :=
  match a, b with
  | _, NaN => true
  | NaN, _ => false
  | NegInf, _ => true
  | _, NegInf => false
  | _, PosInf => true
  | PosInf, _ => false
  | Finite p, Finite q => Qle_bool p q
  end.

Definition ltb (a b : float64) : bool := negb (leb b a).

End np.

(** ** itertools *)

Module itertools.

(** [combinations(iterable, r)]: the [r]-length subsequences, in
    lexicographic order of positions. *)
Fixpoint combinations {A} (l : list A) (r : nat) : list (list A) :=
  match r, l with
  | 0, _ => [[]]
  | S _, [] => []
  | S r', a :: l' => (cons a <$> combinations l' r') ++ combinations l' r
  end.

(** Every way of taking one element out of a list, by position. *)
Fixpoint selections {A} (l : list A) : list (A * list A) :=
  match l with
  | [] => []
  | a :: l' => (a, l') :: ((λ p, (p.1, a :: p.2)) <$> selections l')
  end.

Fixpoint permutations_of_length {A} (n : nat) (l : list A) : list (list A) :=
  match n with
  | 0 => [[]]
  | S n' =>
      selections l ≫= λ p, cons p.1 <$> permutations_of_length n' p.2
  end.

(** [permutations(iterable)]: all full-length orderings, in lexicographic
    order of positions. *)
Definition permutations {A} (l : list A) : list (list A) :=
  permutations_of_length (length l) l.

(** [product] of a list of lists: the rightmost position advances
    fastest; the product of no lists is the single empty tuple. *)
Fixpoint product {A} (ls : list (list A)) : list (list A) :=
  match ls with
  | [] => [[]]
  | l :: ls' => l ≫= λ a, cons a <$> product ls'
  end.

End itertools.

(** ** Input records *)

Module json.

Record order := {
  order_id : string;
  delivery_x : Z;
  delivery_y : Z;
  deadline : Z;
  package_weight : Z }.

Record drone := {
  drone_id : string;
  max_payload : Z;
  max_distance : Z;
  speed : Z;
  available : bool }.

Record input := {
  orders : list order;
  fleet : list drone }.

End json.

(** ** The two input frames *)

Module Orders.

Record row := {
  ID : nat;
  id : string;
  x : Z;
  y : Z;
  time : Z;
  weight : Z }.

End Orders.

Module Drones.

Record row := {
  Drone_ID : nat;
  id : string;
  max_payload : Z;
  max_dist : Z;
  speed : Z;
  available : bool }.

End Drones.

(** Lines 13-20: the orders frame, numbered from 1 in input order. *)
Definition orders_df (orders : list json.order) : list Orders.row :=
  imap (λ i o, {| Orders.ID := S i;
                  Orders.id := json.order_id o;
                  Orders.x := json.delivery_x o;
                  Orders.y := json.delivery_y o;
                  Orders.time := json.deadline o;
                  Orders.weight := json.package_weight o |}) orders.

(** Lines 26-32: the drones frame, numbered from 1, then restricted to
    the available drones.  A frame built from an empty fleet has no
    ['available'] column and the selection raises. *)
Definition drones_df (fleet : list json.drone) : pyresult (list Drones.row) :=
  match fleet with
  | [] => Raise KeyError
  | _ =>
      Ok (filter (λ d, Drones.available d = true)
            (imap (λ i d, {| Drones.Drone_ID := S i;
                             Drones.id := json.drone_id d;
                             Drones.max_payload := json.max_payload d;
                             Drones.max_dist := json.max_distance d;
                             Drones.speed := json.speed d;
                             Drones.available := json.available d |}) fleet))
  end.

(** ** Route generation (lines 35-39) *)

Definition order_ids (odf : list Orders.row) : list nat := Orders.ID <$> odf.

Definition all_combos_perms (order_ids : list nat) : list (list nat) :=
  seq 1 (length order_ids) ≫= λ r,
    itertools.combinations order_ids r ≫= itertools.permutations.

(** ** Per-route metrics and per-drone checks (lines 42-120) *)

Module OrderData.

(** The four columns the script stores per drone. *)
Record checks := {
  weight_check : bool;
  distance_check : bool;
  delivery_time_check : bool;
  overall_check : bool }.

(** One record of [dist_data]; [drone_columns] is keyed by [Drone_ID]. *)
Record row := {
  Order_Combos : list nat;
  dist_list : list (Z * Z);
  distance_list : list Z;
  relative_distance : list Z;
  cumulative_distance : list Z;
  total_distance : Z;
  weight : Z;
  time : list Z;
  drone_columns : gmap nat checks }.

End OrderData.

(** [orders_df.loc[orders_df['ID'] == order, col].values[0]] *)
Definition loc_order {A} (odf : list Orders.row) (order : nat)
    (col : Orders.row → A) : pyresult A :=
  match filter (λ r, Orders.ID r = order) odf with
  | r :: _ => Ok (col r)
  | [] => Raise IndexError
  end.

(** Lines 45-48. *)
Definition coordinates (odf : list Orders.row) (combo : list nat)
    : pyresult (list (Z * Z)) :=
  mapM (λ order,
          x ← loc_order odf order Orders.x;
          y ← loc_order odf order Orders.y;
          mret (x, y)) combo.

Definition manhattan (p : Z * Z) : Z := (Z.abs p.1 + Z.abs p.2)%Z.

(** Lines 56-59: the legs after the first stop. *)
Fixpoint legs (prev : Z * Z) (rest : list (Z * Z)) : list Z :=
  match rest with
  | [] => []
  | p :: rest' =>
      (Z.abs (p.1 - prev.1) + Z.abs (p.2 - prev.2))%Z :: legs p rest'
  end.

(** Lines 55-59; [dist_list[0]] raises on an empty list. *)
Definition relative_distance_of (dist_list : list (Z * Z))
    : pyresult (list Z) :=
  match dist_list with
  | [] => Raise IndexError
  | p :: rest => Ok ((Z.abs p.1 + Z.abs p.2)%Z :: legs p rest)
  end.

(** Lines 63-64: each step appends [cumulative_distance[-1] + r]. *)
Fixpoint running (last : Z) (rel : list Z) : list Z :=
  match rel with
  | [] => []
  | r :: rel' => (last + r)%Z :: running (last + r)%Z rel'
  end.

(** Lines 62-64. *)
Definition cumulative_distance_of (relative_distance : list Z)
    : pyresult (list Z) :=
  match relative_distance with
  | [] => Raise IndexError
  | r0 :: rel' => Ok (r0 :: running r0 rel')
  end.

(** Line 67. *)
Definition total_distance_of (cumulative_distance : list Z)
    (dist_list : list (Z * Z)) : pyresult Z :=
  match last cumulative_distance, last dist_list with
  | Some c, Some p => Ok (c + Z.abs p.1 + Z.abs p.2)%Z
  | _, _ => Raise IndexError
  end.

(** Python's [sum]. *)
Definition sum_Z (l : list Z) : Z := foldl Z.add 0%Z l.

(** [orders_df.loc[orders_df['ID'].isin(combo), col]]: the rows whose ID
    occurs in [combo], in frame order. *)
Definition loc_isin {A} (odf : list Orders.row) (combo : list nat)
    (col : Orders.row → A) : list A :=
  col <$> filter (λ r, Orders.ID r ∈ combo) odf.

(** Line 70. *)
Definition total_weight_of (odf : list Orders.row) (combo : list nat) : Z :=
  sum_Z (loc_isin odf combo Orders.weight).

(** Line 73. *)
Definition time_list_of (odf : list Orders.row) (combo : list nat) : list Z :=
  loc_isin odf combo Orders.time.

(** Lines 90-93. *)
Definition delivery_time_check_of (time_list cumulative_distance : list Z)
    (speed : Z) : bool :=
  forallb (λ p, np.ge p.1 (np.truediv p.2 speed))
          (zip time_list cumulative_distance).

(** Lines 78-96 for one drone. *)
Definition check_drone (total_weight total_distance : Z)
    (time_list cumulative_distance : list Z) (drone : Drones.row)
    : OrderData.checks :=
  let weight_check := bool_decide (total_weight ≤ Drones.max_payload drone)%Z in
  let distance_check := bool_decide (total_distance ≤ Drones.max_dist drone)%Z in
  let delivery_time_check :=
    delivery_time_check_of time_list cumulative_distance (Drones.speed drone) in
  {| OrderData.weight_check := weight_check;
     OrderData.distance_check := distance_check;
     OrderData.delivery_time_check := delivery_time_check;
     OrderData.overall_check :=
       weight_check && distance_check && delivery_time_check |}.

(** Lines 76-104: [drone_columns.update] for every drone in turn. *)
Definition drone_columns_of (total_weight total_distance : Z)
    (time_list cumulative_distance : list Z) (ddf : list Drones.row)
    : gmap nat OrderData.checks :=
  foldl (λ cols drone,
           <[Drones.Drone_ID drone :=
               check_drone total_weight total_distance
                           time_list cumulative_distance drone]> cols)
        ∅ ddf.

(** Lines 43-117: the record appended to [dist_data] for one route. *)
Definition dist_data_row (odf : list Orders.row) (ddf : list Drones.row)
    (combo : list nat) : pyresult OrderData.row :=
  dist_list ← coordinates odf combo;
  let distance_list := manhattan <$> dist_list in
  relative_distance ← relative_distance_of dist_list;
  cumulative_distance ← cumulative_distance_of relative_distance;
  total_distance ← total_distance_of cumulative_distance dist_list;
  let total_weight := total_weight_of odf combo in
  let time_list := time_list_of odf combo in
  mret {| OrderData.Order_Combos := combo;
          OrderData.dist_list := dist_list;
          OrderData.distance_list := distance_list;
          OrderData.relative_distance := relative_distance;
          OrderData.cumulative_distance := cumulative_distance;
          OrderData.total_distance := total_distance;
          OrderData.weight := total_weight;
          OrderData.time := time_list;
          OrderData.drone_columns :=
            drone_columns_of total_weight total_distance
                             time_list cumulative_distance ddf |}.

(** Lines 42-120. *)
Definition order_data_df (odf : list Orders.row) (ddf : list Drones.row)
    : pyresult (list OrderData.row) :=
  mapM (dist_data_row odf ddf) (all_combos_perms (order_ids odf)).

(** ** Assignment enumeration (lines 125-146) *)

(** What one drone gets in a candidate tuple: a route, or the [0]
    placeholder for no assignment. *)
Inductive slot :=
| Placeholder
| Combo (combo : list nat).

#[global] Instance slot_eq_dec : EqDecision slot.
Proof. solve_decision. Defined.

(** The cell [row['drone_<id>_overall']]. *)
Definition overall_of (r : OrderData.row) (drone : nat) : pyresult bool :=
  match OrderData.drone_columns r !! drone with
  | Some c => Ok (OrderData.overall_check c)
  | None => Raise KeyError
  end.

(** Line 127.  The frame of an empty [dist_data] has no columns, so the
    column selection raises. *)
Definition valid_combos (order_data_df : list OrderData.row) (drone : nat)
    : pyresult (list (list nat)) :=
  match order_data_df with
  | [] => Raise KeyError
  | _ =>
      flagged ← mapM (λ r, b ← overall_of r drone; mret (r, b)) order_data_df;
      mret (OrderData.Order_Combos ∘ fst <$> filter (λ p, p.2 = true) flagged)
  end.

(** Lines 125-128. *)
Definition combos_lists (order_data_df : list OrderData.row)
    (ddf : list Drones.row) : pyresult (list (list slot)) :=
  mapM (λ d,
          valid ← valid_combos order_data_df (Drones.Drone_ID d);
          mret ((Combo <$> valid) ++ [Placeholder])) ddf.

(** Lines 139-142: [None] is the early [return False]. *)
Fixpoint add_orders (orders : gset nat) (combo : list nat)
    : option (gset nat) :=
  match combo with
  | [] => Some orders
  | order :: combo' =>
      if decide (order ∈ orders) then None
      else add_orders ({[order]} ∪ orders) combo'
  end.

(** Lines 136-143. *)
Fixpoint is_valid_from (orders : gset nat) (combination : list slot) : bool :=
  match combination with
  | [] => true
  | Placeholder :: rest => is_valid_from orders rest
  | Combo combo :: rest =>
      match add_orders orders combo with
      | None => false
      | Some orders' => is_valid_from orders' rest
      end
  end.

(** Lines 134-143. *)
Definition is_valid_combination (combination : list slot) : bool :=
  is_valid_from ∅ combination.

(** Lines 131 and 146. *)
Definition valid_combinations (combos_lists : list (list slot))
    : list (list slot) :=
  filter (λ combo, is_valid_combination combo = true)
         (itertools.product combos_lists).

(** ** The frame of valid combinations (lines 149-177) *)

(** What [get_drone_metrics] returns: [0] for the placeholder, else a
    cell of [order_data_df]. *)
Inductive cell (A : Type) :=
| Zero
| Cell (a : A).
Arguments Zero {A}.
Arguments Cell {A} a.

Module ValidCombos.

(** The columns of one drone. *)
Record drone_columns := {
  combo : slot;
  weight : cell Z;
  order_coord : cell (list (Z * Z));
  distance : cell (list Z);
  relative_distance : cell (list Z);
  cumulative_distance : cell (list Z);
  total_distance : cell Z;
  total_time : np.float64 }.

Record row := {
  Valid_combinations : list slot;
  drones : list drone_columns;
  Total_Time : np.float64;
  Total_Distance : Z }.

(** The frame after lines 191 and 202. *)
Record ranked := {
  base : row;
  contains_all_orders : bool;
  count : nat }.

End ValidCombos.

(** Line 150, [apply(tuple, axis=1)].  On a frame that has rows but no
    columns pandas does not visit the rows: it calls the function once on
    an empty Series and builds a Series over the frame's index from the
    result, which fails for the empty tuple (length 0 against an index of
    the frame's length).  Line 149 gives such a frame exactly when no
    drone is available: one row per tuple, no column. *)
Definition apply_tuple {A} (columns : nat) (rows : list (list A))
    : pyresult (list (list A)) :=
  match columns, rows with
  | 0, _ :: _ => Raise ValueError
  | _, _ => Ok rows
  end.

(** Lines 153-154. *)
Definition get_drone_metrics {A} (order_data_df : list OrderData.row)
    (combo : slot) (column_name : OrderData.row → A) : pyresult (cell A) :=
  match combo with
  | Placeholder => Ok Zero
  | Combo c =>
      match order_data_df with
      | [] => Raise KeyError
      | _ =>
          match filter (λ r, OrderData.Order_Combos r = c) order_data_df with
          | r :: _ => Ok (Cell (column_name r))
          | [] => Raise IndexError
          end
      end
  end.

(** Lines 166-167. *)
Definition get_last_value (value : cell (list Z)) : Z :=
  match value with
  | Cell l => default 0%Z (last l)
  | Zero => 0%Z
  end.

Definition cell_value (c : cell Z) : Z :=
  match c with
  | Cell z => z
  | Zero => 0%Z
  end.

(** Lines 157-163 and 170-173 for one drone of one row. *)
Definition drone_metrics (order_data_df : list OrderData.row)
    (combo : slot) (speed : Z) : pyresult ValidCombos.drone_columns :=
  weight ← get_drone_metrics order_data_df combo OrderData.weight;
  order_coord ← get_drone_metrics order_data_df combo OrderData.dist_list;
  distance ← get_drone_metrics order_data_df combo OrderData.distance_list;
  relative_distance ←
    get_drone_metrics order_data_df combo OrderData.relative_distance;
  cumulative_distance ←
    get_drone_metrics order_data_df combo OrderData.cumulative_distance;
  total_distance ←
    get_drone_metrics order_data_df combo OrderData.total_distance;
  mret {| ValidCombos.combo := combo;
          ValidCombos.weight := weight;
          ValidCombos.order_coord := order_coord;
          ValidCombos.distance := distance;
          ValidCombos.relative_distance := relative_distance;
          ValidCombos.cumulative_distance := cumulative_distance;
          ValidCombos.total_distance := total_distance;
          ValidCombos.total_time :=
            np.truediv (get_last_value cumulative_distance) speed |}.

(** [sum(axis=1)] on floats: NaN cells are skipped. *)
Definition nansum (l : list np.float64) : np.float64 :=
  foldl np.add (np.Finite 0)
        (filter (λ a, np.isnan a = false) l).

(** Lines 149-177 for one valid combination. *)
Definition valid_combos_row (order_data_df : list OrderData.row)
    (ddf : list Drones.row) (combination : list slot)
    : pyresult ValidCombos.row :=
  drones ← mapM (λ p, drone_metrics order_data_df p.1 (Drones.speed p.2))
                (zip combination ddf);
  mret {| ValidCombos.Valid_combinations := combination;
          ValidCombos.drones := drones;
          ValidCombos.Total_Time := nansum (ValidCombos.total_time <$> drones);
          ValidCombos.Total_Distance :=
            sum_Z (cell_value ∘ ValidCombos.total_distance <$> drones) |}.

(** Lines 149-177. *)
Definition valid_combos_df (order_data_df : list OrderData.row)
    (ddf : list Drones.row) (valid_combinations : list (list slot))
    : pyresult (list ValidCombos.row) :=
  tuples ← apply_tuple (length ddf) valid_combinations;
  mapM (valid_combos_row order_data_df ddf) tuples.

(** ** Selection (lines 180-214) *)

(** The set both [check_all_orders_present] and [count_orders] build. *)
Definition combo_orders (combination : list slot) : gset nat :=
  foldl (λ acc drone_combo,
           match drone_combo with
           | Placeholder => acc
           | Combo c => acc ∪ list_to_set c
           end) ∅ combination.

(** Lines 183-188. *)
Definition check_all_orders_present (all_order_ids : gset nat)
    (combination : list slot) : bool :=
  bool_decide (combo_orders combination = all_order_ids).

(** Lines 194-199. *)
Definition count_orders (combination : list slot) : nat :=
  size (combo_orders combination).

(** Lines 191 and 202 for one row. *)
Definition rank_row (all_order_ids : gset nat) (r : ValidCombos.row)
    : ValidCombos.ranked :=
  {| ValidCombos.base := r;
     ValidCombos.contains_all_orders :=
       check_all_orders_present all_order_ids
         (ValidCombos.Valid_combinations r);
     ValidCombos.count :=
       count_orders (ValidCombos.Valid_combinations r) |}.

(** Lines 191 and 202. *)
Definition rank (all_order_ids : gset nat) (df : list ValidCombos.row)
    : list ValidCombos.ranked :=
  rank_row all_order_ids <$> df.

Definition Total_Time (r : ValidCombos.ranked) : np.float64 :=
  ValidCombos.Total_Time (ValidCombos.base r).

Fixpoint insert_by_time (r : ValidCombos.ranked) (l : list ValidCombos.ranked)
    : list ValidCombos.ranked :=
  match l with
  | [] => [r]
  | r' :: l' =>
      if np.leb (Total_Time r) (Total_Time r') then r :: l
      else r' :: insert_by_time r l'
  end.

(** Line 205, ascending by [Total_Time], NaN last.  Rows with equal keys
    keep their order here; numpy's default sort does not promise that. *)
Definition sort_values (df : list ValidCombos.ranked)
    : list ValidCombos.ranked :=
  foldr insert_by_time [] df.

Fixpoint first_smallest (best : ValidCombos.ranked)
    (rest : list ValidCombos.ranked) : ValidCombos.ranked :=
  match rest with
  | [] => best
  | r :: rest' =>
      if np.ltb (Total_Time r) (Total_Time best) then first_smallest r rest'
      else first_smallest best rest'
  end.

(** [nsmallest(1, "Total_Time")]: the first row with the least key, an
    empty frame for an empty frame. *)
Definition nsmallest_1 (df : list ValidCombos.ranked)
    : list ValidCombos.ranked :=
  match df with
  | [] => []
  | r :: rest => [first_smallest r rest]
  end.

(** Lines 210-214. *)
Definition final_output (df : list ValidCombos.ranked)
    : list ValidCombos.ranked :=
  if existsb ValidCombos.contains_all_orders df then
    nsmallest_1 (filter (λ r, ValidCombos.contains_all_orders r = true) df)
  else
    let max_count := max_list (ValidCombos.count <$> df) in
    nsmallest_1 (filter (λ r, ValidCombos.count r = max_count) df).

(** ** Output (lines 216-235) *)

Record assignment := {
  drone : string;
  orders : list string;
  total_distance : Z }.

(** The body of the loop at lines 219-229 for one drone. *)
Definition assignment_of (odf : list Orders.row)
    (final_output : list ValidCombos.ranked)
    (p : Drones.row * ValidCombos.drone_columns) : pyresult assignment :=
  orders_1 ←
    match ValidCombos.combo p.2 with
    | Placeholder => Ok []
    | Combo c => mapM (λ order, loc_order odf order Orders.id) c
    end;
  mret {| drone := Drones.id p.1;
          orders := orders_1;
          total_distance := cell_value (ValidCombos.total_distance p.2) |}.

(** Lines 216-235; [list(...)[0]] raises on an empty [final_output]. *)
Definition json_dict (odf : list Orders.row) (ddf : list Drones.row)
    (final_output : list ValidCombos.ranked) : pyresult (list assignment) :=
  match ddf, final_output with
  | [], _ => Ok []
  | _, [] => Raise IndexError
  | _, r :: _ =>
      mapM (assignment_of odf final_output)
           (zip ddf (ValidCombos.drones (ValidCombos.base r)))
  end.

(** ** The whole script *)

Definition main (data : json.input) : pyresult (list assignment) :=
  let odf := orders_df (json.orders data) in
  ddf ← drones_df (json.fleet data);
  order_data ← order_data_df odf ddf;
  lists ← combos_lists order_data ddf;
  frame ← valid_combos_df order_data ddf (valid_combinations lists);
  let all_order_ids : gset nat := list_to_set (order_ids odf) in
  json_dict odf ddf (final_output (sort_values (rank all_order_ids frame))).

(** ** Definitions used to state the properties *)

(** The deadline list as the specification describes it: the deadlines of
    the member orders taken in route order. *)
Definition deadlines_in_route_order (odf : list Orders.row)
    (combo : list nat) : pyresult (list Z) :=
  mapM (λ order, loc_order odf order Orders.time) combo.

(** The orders a slot of a candidate tuple serves. *)
Definition slot_orders (s : slot) : list nat :=
  match s with
  | Placeholder => []
  | Combo c => c
  end.

(** The candidate list line 128 builds from one drone's feasible routes. *)
Definition with_placeholder (valid : list (list nat)) : list slot :=
  (Combo <$> valid) ++ [Placeholder].

(** Sample inputs. *)
Definition sample_order (x y deadline weight : Z) : json.order :=
  {| json.order_id := "order";
     json.delivery_x := x;
     json.delivery_y := y;
     json.deadline := deadline;
     json.package_weight := weight |}.

Definition sample_drone (payload distance speed : Z) (available : bool)
    : json.drone :=
  {| json.drone_id := "drone";
     json.max_payload := payload;
     json.max_distance := distance;
     json.speed := speed;
     json.available := available |}.

(** Two orders on a line; the nearer one has the earlier deadline. *)
Definition two_orders : list json.order :=
  [sample_order 1 0 10 1; sample_order 10 0 19 1].

(** The same positions; here the farther order has the earlier deadline. *)
Definition two_orders_swapped : list json.order :=
  [sample_order 1 0 20 1; sample_order 10 0 10 1].

Definition one_drone : list json.drone := [sample_drone 5 100 1 true].

(** A drone that cannot carry both of [two_orders] at once. *)
Definition weak_drone : list json.drone := [sample_drone 1 100 1 true].

(** A drone of speed 0. *)
Definition stalled_drone : list json.drone := [sample_drone 5 100 0 true].

(** A fleet with no available drone. *)
Definition grounded_fleet : list json.drone := [sample_drone 5 100 1 false].

(** Lines 26-177: the frame of valid combinations for given input. *)
Definition valid_combos_frame (orders : list json.order)
    (fleet : list json.drone) : pyresult (list ValidCombos.row) :=
  ddf ← drones_df fleet;
  order_data ← order_data_df (orders_df orders) ddf;
  lists ← combos_lists order_data ddf;
  valid_combos_df order_data ddf (valid_combinations lists).

(** A slot that [get_drone_metrics] can look up in [order_data_df]. *)
Definition slot_known (order_data_df : list OrderData.row) (s : slot) : Prop :=
  match s with
  | Placeholder => True
  | Combo c => ∃ row, row ∈ order_data_df ∧ OrderData.Order_Combos row = c
  end.

(** The order in which two rows are sorted by [Total_Time]. *)
Definition time_le (a b : ValidCombos.ranked) : Prop :=
  np.leb (Total_Time a) (Total_Time b) = true.

(** Lines 55-67 in one step: the round-trip distance of a coordinate
    list. *)
Definition round_trip (dist_list : list (Z * Z)) : pyresult Z :=
  relative_distance ← relative_distance_of dist_list;
  cumulative_distance ← cumulative_distance_of relative_distance;
  total_distance_of cumulative_distance dist_list.

(** The name the output gives to order number [i]. *)
Definition order_name (orders : list json.order) (i : nat) : string :=
  default EmptyString (json.order_id <$> orders !! pred i).

(** ** Sample evaluations *)

Example combinations_3_2 :
  itertools.combinations [1; 2; 3] 2 = [[1; 2]; [1; 3]; [2; 3]].
Proof. reflexivity. Qed.

Example permutations_3 :
  itertools.permutations [1; 2; 3]
  = [[1; 2; 3]; [1; 3; 2]; [2; 1; 3]; [2; 3; 1]; [3; 1; 2]; [3; 2; 1]].
Proof. reflexivity. Qed.

Example product_2_2 :
  itertools.product [[1; 2]; [3; 4]] = [[1; 3]; [1; 4]; [2; 3]; [2; 4]].
Proof. reflexivity. Qed.

Example product_nil : itertools.product (A := nat) [] = [[]].
Proof. reflexivity. Qed.

Example all_combos_perms_2 :
  all_combos_perms [1; 2] = [[1]; [2]; [1; 2]; [2; 1]].
Proof. reflexivity. Qed.

(** One order at (3, 4), deadline 10, weight 2; one drone of payload 5,
    range 20, speed 1: the drone flies the order, 14 in total. *)
Example single_order_run :
  main {| json.orders := [sample_order 3 4 10 2];
          json.fleet := [sample_drone 5 20 1 true] |}
  = Ok [{| drone := "drone"; orders := ["order"]; total_distance := 14 |}].
Proof. vm_compute. reflexivity. Qed.

(** Two orders too heavy to carry together: one of them is served. *)
Example overweight_run :
  main {| json.orders := two_orders; json.fleet := weak_drone |}
  = Ok [{| drone := "drone"; orders := ["order"]; total_distance := 2 |}].
Proof. vm_compute. reflexivity. Qed.

(** A drone of speed 0 stays idle. *)
Example stalled_run :
  main {| json.orders := two_orders; json.fleet := stalled_drone |}
  = Ok [{| drone := "drone"; orders := []; total_distance := 0 |}].
Proof. vm_compute. reflexivity. Qed.
(** ** Facts about the enumerations *)

Section itertools_facts.
Context {A : Type}.
Implicit Types (l c p : list A) (a : A).

Lemma elem_of_combinations l r c :
  c ∈ itertools.combinations l r ↔ c `sublist_of` l ∧ length c = r.
Proof.
  revert r c. induction l as [|a l IH]; intros [|r] c; simpl.
  - rewrite list_elem_of_singleton, sublist_nil_r.
    split; [by intros ->|by intros [-> _]].
  - rewrite elem_of_nil, sublist_nil_r. split; [done|by intros [-> ?]].
  - rewrite list_elem_of_singleton. split.
    + intros ->. split; [apply sublist_nil_l|done].
    + intros [_ ?]. by apply nil_length_inv.
  - rewrite elem_of_app, list_elem_of_fmap, sublist_cons_r. split.
    + intros [(c' & -> & Hc')|Hc].
      * apply IH in Hc' as [? ?]. split; [right; eauto|simpl; lia].
      * apply IH in Hc as [? ?]. split; [by left|done].
    + intros [[Hc|(c' & -> & Hc')] Hlen].
      * right. apply IH. done.
      * left. exists c'. split; [done|]. apply IH. simpl in Hlen.
        split; [done|lia].
Qed.

Lemma selections_fst l : fst <$> itertools.selections l = l.
Proof.
  induction l as [|a l IH]; simpl; [done|]. f_equal.
  rewrite <- list_fmap_compose. by rewrite <- IH at 2.
Qed.

Lemma elem_of_selections l a rest :
  (a, rest) ∈ itertools.selections l ↔
  ∃ l1 l2, l = l1 ++ a :: l2 ∧ rest = l1 ++ l2.
Proof.
  revert a rest. induction l as [|b l IH]; intros a rest; simpl.
  - rewrite elem_of_nil. split; [done|].
    intros (l1 & l2 & Hl & _). by destruct l1.
  - rewrite elem_of_cons, list_elem_of_fmap. split.
    + intros [[= -> ->]|([a' rest'] & [= -> ->] & Hin)].
      * by exists [], l.
      * apply IH in Hin as (l1 & l2 & -> & ->). by exists (b :: l1), l2.
    + intros (l1 & l2 & Hl & ->). destruct l1 as [|b' l1]; simplify_eq/=.
      * by left.
      * right. exists (a, l1 ++ l2). split; [done|]. apply IH. eauto.
Qed.

Lemma selections_Permutation l a rest :
  (a, rest) ∈ itertools.selections l → l ≡ₚ a :: rest.
Proof.
  intros (l1 & l2 & -> & ->)%elem_of_selections.
  by rewrite Permutation_middle.
Qed.

Lemma selections_length l a rest :
  (a, rest) ∈ itertools.selections l → length l = S (length rest).
Proof. intros H%selections_Permutation. by rewrite H. Qed.

Lemma elem_of_permutations_of_length n l p :
  length l = n → p ∈ itertools.permutations_of_length n l ↔ p ≡ₚ l.
Proof.
  revert l p. induction n as [|n IH]; intros l p Hlen; simpl.
  - apply nil_length_inv in Hlen as ->. rewrite list_elem_of_singleton.
    split; [by intros ->|]. intros H. by apply Permutation_nil_r.
  - rewrite list_elem_of_bind. split.
    + intros ([a rest] & (p' & -> & Hp')%list_elem_of_fmap & Hsel). simpl in *.
      pose proof (selections_length _ _ _ Hsel).
      apply IH in Hp'; [|lia].
      rewrite Hp'. symmetry. by apply selections_Permutation.
    + intros Hp. destruct p as [|a p'].
      { apply Permutation_nil_l in Hp. by subst. }
      assert (a ∈ l) as (l1 & l2 & ->)%list_elem_of_split.
      { rewrite <- Hp. by left. }
      exists (a, l1 ++ l2). split.
      * apply list_elem_of_fmap. exists p'. split; [done|]. simpl.
        rewrite <- Permutation_middle in Hp.
        apply Permutation_cons_inv in Hp.
        assert (length (l1 ++ l2) = n) as Hlen'.
        { rewrite length_app in *. simpl in *. lia. }
        by apply (IH _ p' Hlen').
      * apply elem_of_selections. eauto.
Qed.

Lemma elem_of_permutations l p : p ∈ itertools.permutations l ↔ p ≡ₚ l.
Proof. by apply elem_of_permutations_of_length. Qed.

Lemma NoDup_selections l : NoDup l → NoDup (itertools.selections l).
Proof.
  intros Hl. apply (NoDup_fmap_1 fst). by rewrite selections_fst.
Qed.

Lemma selections_inj l s1 s2 :
  NoDup l → s1 ∈ itertools.selections l → s2 ∈ itertools.selections l →
  s1.1 = s2.1 → s1 = s2.
Proof.
  intros Hl H1 H2 Heq.
  assert (NoDup (fst <$> itertools.selections l)) as Hnd
    by by rewrite selections_fst.
  revert Hnd H1 H2. generalize (itertools.selections l). intros ss.
  induction ss as [|s ss IH]; [by intros _ ?%elem_of_nil|].
  rewrite fmap_cons, NoDup_cons. intros [Hs Hss].
  rewrite !elem_of_cons. intros [->|H1] [->|H2]; auto.
  - destruct Hs. rewrite Heq. apply list_elem_of_fmap. eauto.
  - destruct Hs. rewrite <- Heq. apply list_elem_of_fmap. eauto.
Qed.

Lemma NoDup_permutations_of_length n l :
  NoDup l → NoDup (itertools.permutations_of_length n l).
Proof.
  revert l. induction n as [|n IH]; intros l Hl; simpl.
  { apply NoDup_singleton. }
  apply NoDup_bind; [| |by apply NoDup_selections].
  - intros s1 s2 p H1 H2 (p1 & -> & _)%list_elem_of_fmap
      (p2 & [= Ha _] & _)%list_elem_of_fmap.
    by apply (selections_inj l).
  - intros [a rest] Hsel. simpl. apply NoDup_fmap_2; [apply _|].
    apply IH. apply selections_Permutation in Hsel.
    rewrite Hsel in Hl. by apply NoDup_cons in Hl as [_ ?].
Qed.

Lemma NoDup_permutations l : NoDup l → NoDup (itertools.permutations l).
Proof. apply NoDup_permutations_of_length. Qed.

Lemma length_bind_const {B C} (f : B → list C) (k : list B) m :
  (∀ b, b ∈ k → length (f b) = m) → length (k ≫= f) = length k * m.
Proof.
  induction k as [|b k IH]; intros Hf; csimpl; [done|].
  rewrite length_app, Hf, IH; [lia| |by left].
  intros ??. apply Hf. by right.
Qed.

Lemma length_selections l : length (itertools.selections l) = length l.
Proof. by rewrite <- (selections_fst l) at 2; rewrite length_fmap. Qed.

Lemma length_permutations_of_length n l :
  length l = n → length (itertools.permutations_of_length n l) = fact n.
Proof.
  revert l. induction n as [|n IH]; intros l Hlen; simpl; [done|].
  rewrite (length_bind_const _ _ (fact n)).
  - rewrite length_selections, Hlen. simpl. lia.
  - intros [a rest] Hsel. simpl. rewrite length_fmap. apply IH.
    apply selections_length in Hsel. lia.
Qed.

Lemma length_permutations l :
  length (itertools.permutations l) = fact (length l).
Proof. by apply length_permutations_of_length. Qed.

Lemma elem_of_product (ls : list (list A)) t :
  t ∈ itertools.product ls ↔ Forall2 (λ a l, a ∈ l) t ls.
Proof.
  revert t. induction ls as [|l ls IH]; intros t; simpl.
  - rewrite list_elem_of_singleton. split; [by intros ->|by inv 1].
  - rewrite list_elem_of_bind. split.
    + intros (a & (t' & -> & Ht')%list_elem_of_fmap & Ha).
      constructor; [done|by apply IH].
    + inv 1 as [|a ? t' ? Ha Ht']. exists a. split; [|done].
      apply list_elem_of_fmap. exists t'. split; [done|by apply IH].
Qed.

End itertools_facts.

(** ** The route generator *)

Section route_generator.
Context `{EqDecision A}.
Implicit Types (l c p : list A) (a : A).

Lemma list_filter_ext_in (P1 P2 : A → Prop)
    `{!∀ x, Decision (P1 x), !∀ x, Decision (P2 x)} l :
  (∀ x, x ∈ l → P1 x ↔ P2 x) → filter P1 l = filter P2 l.
Proof.
  induction l as [|a l IH]; intros HP; [done|].
  rewrite !filter_cons, IH by (intros; apply HP; by right).
  apply decide_ext, HP. by left.
Qed.

Lemma sublist_filter_elem_of l c :
  NoDup l → c `sublist_of` l → filter (λ a, a ∈ c) l = c.
Proof.
  intros Hl Hc. induction Hc as [|a c l Hc IH|a c l Hc IH].
  - done.
  - apply NoDup_cons in Hl as [Ha Hl].
    rewrite filter_cons_True by left. f_equal.
    transitivity (filter (λ b, b ∈ c) l); [|by apply IH].
    apply list_filter_ext_in. intros b Hb. rewrite elem_of_cons.
    split; [|by right]. intros [->|]; done.
  - apply NoDup_cons in Hl as [Ha Hl].
    rewrite filter_cons_False; [by apply IH|].
    intros Hac. apply Ha. by apply (sublist_subseteq _ _ Hc).
Qed.

Lemma sublist_Permutation_eq l c1 c2 :
  NoDup l → c1 `sublist_of` l → c2 `sublist_of` l → c1 ≡ₚ c2 → c1 = c2.
Proof.
  intros Hl H1 H2 Hp.
  rewrite <- (sublist_filter_elem_of l c1), <- (sublist_filter_elem_of l c2)
    by done.
  apply list_filter_iff. intros a. by rewrite Hp.
Qed.

Lemma NoDup_combinations l r : NoDup l → NoDup (itertools.combinations l r).
Proof.
  intros Hl. revert r. induction Hl as [|a l Ha Hl IH]; intros [|r]; simpl;
    try apply NoDup_singleton; [by apply NoDup_nil|].
  apply NoDup_app. split_and!.
  - apply NoDup_fmap_2; [apply _|apply IH].
  - intros c (c' & -> & _)%list_elem_of_fmap [Hc _]%elem_of_combinations.
    apply Ha. apply (sublist_subseteq _ _ Hc). by left.
  - apply IH.
Qed.

Lemma length_combinations_fact l r :
  r ≤ length l →
  length (itertools.combinations l r) * fact r * fact (length l - r)
  = fact (length l).
Proof.
  revert r. induction l as [|a l IH]; intros [|r] Hr; simpl in *;
    try lia.
  rewrite length_app, length_fmap.
  pose proof (IH r ltac:(lia)) as IH1.
  destruct (decide (S r ≤ length l)) as [Hle|Hgt].
  - pose proof (IH (S r) Hle) as IH2.
    replace (length l - r) with (S (length l - S r)) in * by lia.
    simpl in *. nia.
  - assert (length (itertools.combinations l (S r)) = 0) as ->.
    { destruct (itertools.combinations l (S r)) as [|c ?] eqn:Hc; [done|].
      assert (c ∈ itertools.combinations l (S r)) as [Hs Hlen]%elem_of_combinations
        by (rewrite Hc; left).
      apply sublist_length in Hs. lia. }
    replace (length l - r) with 0 in * by lia. simpl in *. nia.
Qed.

Lemma length_arrangements l r :
  r ≤ length l →
  length (itertools.combinations l r ≫= itertools.permutations)
  = fact (length l) / fact (length l - r).
Proof.
  intros Hr. rewrite (length_bind_const _ _ (fact r)).
  - rewrite <- (length_combinations_fact l r Hr).
    rewrite Nat.div_mul; [done|]. apply fact_neq_0.
  - intros c [_ <-]%elem_of_combinations. apply length_permutations.
Qed.

End route_generator.

Lemma length_bind_sum {B C} (f : B → list C) (k : list B) :
  length (k ≫= f) = sum_list_with (λ b, length (f b)) k.
Proof.
  induction k as [|b k IH]; csimpl; [done|]. by rewrite length_app, IH.
Qed.

Lemma sum_list_with_ext_in {B} (f g : B → nat) (k : list B) :
  (∀ b, b ∈ k → f b = g b) → sum_list_with f k = sum_list_with g k.
Proof.
  induction k as [|b k IH]; intros Hfg; simpl; [done|].
  rewrite Hfg, IH; [done| |by left]. intros ??. apply Hfg. by right.
Qed.

Lemma length_all_combos_perms (ids : list nat) :
  length (all_combos_perms ids)
  = sum_list_with (λ k, fact (length ids) / fact (length ids - k))
                  (seq 1 (length ids)).
Proof.
  unfold all_combos_perms. rewrite length_bind_sum.
  apply sum_list_with_ext_in. intros k Hk%elem_of_seq.
  apply length_arrangements. lia.
Qed.

Lemma elem_of_all_combos_perms (ids route : list nat) :
  route ∈ all_combos_perms ids ↔
  ∃ c, c `sublist_of` ids ∧ c ≠ [] ∧ route ≡ₚ c.
Proof.
  unfold all_combos_perms. rewrite list_elem_of_bind. split.
  - intros (k & (c & Hr%elem_of_permutations
                  & [Hc Hlen]%elem_of_combinations)%list_elem_of_bind
              & Hk%elem_of_seq).
    exists c. split_and!; [done| |done]. intros ->. simpl in *. lia.
  - intros (c & Hc & Hne & Hr). exists (length c). split.
    + apply list_elem_of_bind. exists c.
      split; [by apply elem_of_permutations|by apply elem_of_combinations].
    + apply elem_of_seq. apply sublist_length in Hc.
      destruct c; [done|]. simpl in *. lia.
Qed.

Lemma all_combos_perms_spec (ids route : list nat) :
  NoDup ids →
  route ∈ all_combos_perms ids ↔ route ≠ [] ∧ NoDup route ∧ route ⊆ ids.
Proof.
  intros Hids. rewrite elem_of_all_combos_perms. split.
  - intros (c & Hc & Hne & Hr). split_and!.
    + intros ->. by apply Permutation_nil_l in Hr.
    + rewrite Hr. by apply (sublist_NoDup c ids).
    + intros a Ha. apply (sublist_subseteq _ _ Hc). by rewrite <- Hr.
  - intros (Hne & Hnd & Hsub).
    exists (filter (λ a, a ∈ route) ids). split_and!.
    + apply sublist_filter.
    + destruct route as [|a route]; [done|].
      intros Hnil. apply (filter_nil_not_elem_of _ _ a) in Hnil; [|by left].
      apply Hnil, Hsub. by left.
    + apply NoDup_Permutation; [done|by apply NoDup_filter|].
      intros a. rewrite list_elem_of_filter. naive_solver.
Qed.

Lemma NoDup_all_combos_perms (ids : list nat) :
  NoDup ids → NoDup (all_combos_perms ids).
Proof.
  intros Hids. unfold all_combos_perms. apply NoDup_bind; [| |apply NoDup_seq].
  - intros k1 k2 route _ _
      (c1 & Hr1%elem_of_permutations & [_ <-]%elem_of_combinations)%list_elem_of_bind
      (c2 & Hr2%elem_of_permutations & [_ <-]%elem_of_combinations)%list_elem_of_bind.
    by rewrite <- Hr1, <- Hr2.
  - intros k _. apply NoDup_bind; [| |by apply NoDup_combinations].
    + intros c1 c2 route [H1 _]%elem_of_combinations [H2 _]%elem_of_combinations
        Hr1%elem_of_permutations Hr2%elem_of_permutations.
      apply (sublist_Permutation_eq ids); [done..|]. by rewrite <- Hr1.
    + intros c [Hc _]%elem_of_combinations. apply NoDup_permutations.
      by apply (sublist_NoDup c ids).
Qed.

(** C7.  For [n] distinct identifiers the generator yields
    sum over k = 1..n of n!/(n-k)! routes; a sequence is generated exactly
    when it is non-empty, repeats no identifier and draws from the
    identifiers; no route is generated twice; and every subset of size [k]
    contributes its [k!] distinct orderings. *)
Theorem route_generator_exhaustive (ids : list nat) :
  NoDup ids →
  length (all_combos_perms ids)
  = sum_list_with (λ k, fact (length ids) / fact (length ids - k))
                  (seq 1 (length ids))
  ∧ (∀ route, route ∈ all_combos_perms ids ↔
              route ≠ [] ∧ NoDup route ∧ route ⊆ ids)
  ∧ NoDup (all_combos_perms ids)
  ∧ (∀ k c, 1 ≤ k → c ∈ itertools.combinations ids k →
            itertools.permutations c ⊆ all_combos_perms ids
            ∧ NoDup (itertools.permutations c)
            ∧ length (itertools.permutations c) = fact k).
Proof.
  intros Hids. split_and!.
  - apply length_all_combos_perms.
  - intros route. by apply all_combos_perms_spec.
  - by apply NoDup_all_combos_perms.
  - intros k c Hk [Hc Hlen]%elem_of_combinations. split_and!.
    + intros route Hr%elem_of_permutations.
      apply elem_of_all_combos_perms. exists c. split_and!; [done| |done].
      intros ->. simpl in *. lia.
    + apply NoDup_permutations. by apply (sublist_NoDup c ids).
    + by rewrite length_permutations, Hlen.
Qed.

Lemma route_generator_exhaustive_witness :
  NoDup [1; 2; 3]
  ∧ length (all_combos_perms [1; 2; 3]) = 15
  ∧ [3; 1] ∈ all_combos_perms [1; 2; 3].
Proof.
  assert (NoDup [1; 2; 3]) as Hnd by compute_done.
  destruct (route_generator_exhaustive [1; 2; 3] Hnd) as (Hlen & Hin & _).
  split_and!; [done|by rewrite Hlen|].
  apply Hin. split_and!; [done|compute_done|set_solver].
Defined.

(** ** Route metrics *)




(** ** Results of fallible steps *)

Lemma Ok_bind {A B} (a : A) (f : A → pyresult B) : Ok a ≫= f = f a.
Proof. done. Qed.

Lemma bind_Ok {A B} (m : pyresult A) (f : A → pyresult B) (b : B) :
  m ≫= f = Ok b ↔ ∃ a, m = Ok a ∧ f a = Ok b.
Proof.
  destruct m as [a|e]; simpl; split.
  - intros Hf. by exists a.
  - by intros (a' & [= <-] & Hf).
  - done.
  - by intros (a' & [=] & _).
Qed.

Lemma mapM_Ok {A B} (f : A → pyresult B) (l : list A) (ys : list B) :
  mapM f l = Ok ys ↔ Forall2 (λ a y, f a = Ok y) l ys.
Proof.
  revert ys. induction l as [|a l IH]; intros ys; simpl.
  - split; [intros [= <-]; constructor|by inv 1].
  - rewrite bind_Ok. split.
    + intros (y & Hy & (ys' & Hys & [= <-])%bind_Ok).
      constructor; [done|by apply IH].
    + inv 1 as [|? y ? ys' Hy Hys]. exists y. split; [done|].
      apply bind_Ok. exists ys'. split; [by apply IH|done].
Qed.


Lemma mapM_Ok_length {A B} (f : A → pyresult B) (l : list A) (ys : list B) :
  mapM f l = Ok ys → length ys = length l.
Proof. intros H%mapM_Ok. symmetry. by eapply Forall2_length. Qed.

Lemma mapM_Ok_elem_of {A B} (f : A → pyresult B) (l : list A) ys y :
  mapM f l = Ok ys → y ∈ ys → ∃ a, a ∈ l ∧ f a = Ok y.
Proof.
  intros H%mapM_Ok Hy. revert Hy. induction H as [|a y' l ys' Hy' H IH].
  - by intros ?%elem_of_nil.
  - intros [->|Hy]%elem_of_cons.
    + exists a. split; [by left|done].
    + destruct (IH Hy) as (a' & ? & ?). exists a'. split; [by right|done].
Qed.

Lemma mapM_Ok_lookup {A B} (f : A → pyresult B) (l : list A) ys i a :
  mapM f l = Ok ys → l !! i = Some a → ∃ y, ys !! i = Some y ∧ f a = Ok y.
Proof.
  intros H%mapM_Ok Ha.
  destruct (Forall2_lookup_l _ _ _ _ _ H Ha) as (y & ? & ?). eauto.
Qed.

(** Takes apart every hypothesis saying that a chain of steps returned. *)
Ltac inv_bind :=
  repeat match goal with
    | H : _ ≫= _ = Ok _ |- _ =>
        let a := fresh "a" in
        let Ha := fresh "Ha" in
        apply bind_Ok in H as (a & Ha & H)
    | H : mret _ = Ok _ |- _ => injection H as H
    end.

Lemma dist_data_row_Ok odf ddf combo row :
  dist_data_row odf ddf combo = Ok row →
  ∃ dl rel cum td,
    coordinates odf combo = Ok dl
    ∧ relative_distance_of dl = Ok rel
    ∧ cumulative_distance_of rel = Ok cum
    ∧ total_distance_of cum dl = Ok td
    ∧ row = {| OrderData.Order_Combos := combo;
               OrderData.dist_list := dl;
               OrderData.distance_list := manhattan <$> dl;
               OrderData.relative_distance := rel;
               OrderData.cumulative_distance := cum;
               OrderData.total_distance := td;
               OrderData.weight := total_weight_of odf combo;
               OrderData.time := time_list_of odf combo;
               OrderData.drone_columns :=
                 drone_columns_of (total_weight_of odf combo) td
                   (time_list_of odf combo) cum ddf |}.
Proof.
  unfold dist_data_row.
  intros (dl & Hdl & (rel & Hrel & (cum & Hcum
            & (td & Htd & [= <-])%bind_Ok)%bind_Ok)%bind_Ok)%bind_Ok.
  by exists dl, rel, cum, td.
Qed.

Lemma drone_columns_of_lookup w td tl cum ddf k :
  drone_columns_of w td tl cum ddf !! k
  = check_drone w td tl cum
      <$> last (filter (λ d, Drones.Drone_ID d = k) ddf).
Proof.
  unfold drone_columns_of.
  assert (∀ m : gmap nat OrderData.checks,
    foldl (λ cols drone,
             <[Drones.Drone_ID drone := check_drone w td tl cum drone]> cols)
          m ddf !! k
    = match last (filter (λ d, Drones.Drone_ID d = k) ddf) with
      | Some d => Some (check_drone w td tl cum d)
      | None => m !! k
      end) as Hgen.
  { induction ddf as [|d ddf IH] using rev_ind; intros m; [done|].
    rewrite foldl_app, filter_app. simpl.
    rewrite filter_cons, filter_nil. case_decide as Hk.
    - rewrite last_snoc. subst k. apply lookup_insert_eq.
    - rewrite app_nil_r, lookup_insert_ne by done. apply IH. }
  rewrite Hgen, lookup_empty. by destruct (last _).
Qed.

(** C10.  Two routes over the same orders have the same total weight, so
    every drone's weight verdict is the same for both. *)
Theorem weight_check_permutation_invariant odf ddf route1 route2 row1 row2 :
  route1 ≡ₚ route2 →
  dist_data_row odf ddf route1 = Ok row1 →
  dist_data_row odf ddf route2 = Ok row2 →
  OrderData.weight row1 = OrderData.weight row2
  ∧ ∀ drone,
      OrderData.weight_check <$> OrderData.drone_columns row1 !! drone
      = OrderData.weight_check <$> OrderData.drone_columns row2 !! drone.
Proof.
  intros Hperm (dl1 & rel1 & cum1 & td1 & _ & _ & _ & _ & ->)%dist_data_row_Ok
    (dl2 & rel2 & cum2 & td2 & _ & _ & _ & _ & ->)%dist_data_row_Ok.
  simpl.
  assert (total_weight_of odf route1 = total_weight_of odf route2) as Hw.
  { unfold total_weight_of, loc_isin. do 2 f_equal.
    apply list_filter_iff. intros r. by rewrite Hperm. }
  split; [done|]. intros drone.
  rewrite !drone_columns_of_lookup, Hw.
  by destruct (last _).
Qed.

Lemma weight_check_permutation_invariant_witness :
  ∃ row1 row2,
    dist_data_row (orders_df two_orders) [] [1; 2] = Ok row1
    ∧ dist_data_row (orders_df two_orders) [] [2; 1] = Ok row2
    ∧ OrderData.weight row1 = OrderData.weight row2.
Proof.
  assert (∃ row, dist_data_row (orders_df two_orders) [] [1; 2] = Ok row)
    as [row1 H1] by (vm_compute; eauto).
  assert (∃ row, dist_data_row (orders_df two_orders) [] [2; 1] = Ok row)
    as [row2 H2] by (vm_compute; eauto).
  exists row1, row2. split; [done|]. split; [done|].
  eapply (weight_check_permutation_invariant _ _ [1; 2] [2; 1]);
    [apply perm_swap|exact H1|exact H2].
Defined.

(** The deadline list of a route does not depend on the order of the
    route: [isin] selects rows by membership. *)
Lemma time_list_permutation_invariant odf route1 route2 :
  route1 ≡ₚ route2 → time_list_of odf route1 = time_list_of odf route2.
Proof.
  intros Hperm. unfold time_list_of, loc_isin. f_equal.
  apply list_filter_iff. intros r. by rewrite Hperm.
Qed.

(** C1.  On the route (2, 1) the deadline list the check zips with the
    cumulative distances is in frame order, not in route order.  Over
    [two_orders] the script finds the route feasible although its second
    stop, order 1, is reached at time 19 with deadline 10; over
    [two_orders_swapped] it finds the route infeasible although both
    deadlines are met. *)
Theorem time_list_not_in_route_order :
  ((ddf ← drones_df one_drone;
    row ← dist_data_row (orders_df two_orders) ddf [2; 1];
    mret (OrderData.cumulative_distance row, OrderData.time row,
          OrderData.delivery_time_check <$> OrderData.drone_columns row !! 1))
   = Ok ([10; 19]%Z, [10; 19]%Z, Some true)
   ∧ deadlines_in_route_order (orders_df two_orders) [2; 1] = Ok [19; 10]%Z
   ∧ delivery_time_check_of [19; 10]%Z [10; 19]%Z 1 = false)
  ∧ ((ddf ← drones_df one_drone;
      row ← dist_data_row (orders_df two_orders_swapped) ddf [2; 1];
      mret (OrderData.cumulative_distance row, OrderData.time row,
            OrderData.delivery_time_check
              <$> OrderData.drone_columns row !! 1))
     = Ok ([10; 19]%Z, [20; 10]%Z, Some false)
     ∧ deadlines_in_route_order (orders_df two_orders_swapped) [2; 1]
       = Ok [10; 20]%Z
     ∧ delivery_time_check_of [10; 20]%Z [10; 19]%Z 1 = true).
Proof. split_and!; vm_compute; reflexivity. Qed.

(** ** The validity filter *)

Lemma add_orders_Some (orders orders' : gset nat) (combo : list nat) :
  add_orders orders combo = Some orders' ↔
  NoDup combo ∧ (∀ o, o ∈ combo → o ∉ orders)
  ∧ orders' = list_to_set combo ∪ orders.
Proof.
  revert orders. induction combo as [|o combo IH]; intros orders; simpl.
  - split.
    + intros [= <-]. split_and!; [constructor|by intros ? ?%elem_of_nil|].
      by rewrite (left_id_L ∅ (∪)).
    + intros (_ & _ & ->). by rewrite (left_id_L ∅ (∪)).
  - case_decide as Ho.
    + split; [done|]. intros (_ & Hfresh & _). destruct (Hfresh o); [by left|done].
    + rewrite IH, NoDup_cons. split.
      * intros (Hnd & Hfresh & ->). split_and!.
        -- intros Hin. apply (Hfresh o Hin).
           apply elem_of_union_l. by apply elem_of_singleton.
        -- done.
        -- intros o' [->|Hin]%elem_of_cons; [done|].
           intros Ho'. apply (Hfresh o' Hin). by apply elem_of_union_r.
        -- by rewrite (assoc_L (∪)), (comm_L (∪) _ {[o]}).
      * intros ([Hno Hnd] & Hfresh & ->). split_and!; [done| |].
        -- intros o' Hin [->%elem_of_singleton|Ho']%elem_of_union; [done|].
           apply (Hfresh o'); [by right|done].
        -- by rewrite (assoc_L (∪)), (comm_L (∪) _ {[o]}).
Qed.

Lemma is_valid_from_true (orders : gset nat) (combination : list slot) :
  is_valid_from orders combination = true ↔
  NoDup (combination ≫= slot_orders)
  ∧ ∀ o, o ∈ combination ≫= slot_orders → o ∉ orders.
Proof.
  revert orders.
  induction combination as [|[|combo] rest IH]; intros orders; csimpl.
  - split; [|done]. intros _. split; [constructor|by intros ? ?%elem_of_nil].
  - apply IH.
  - destruct (add_orders orders combo) as [orders'|] eqn:Hadd.
    + apply add_orders_Some in Hadd as (Hnd & Hfresh & ->).
      rewrite IH, NoDup_app. split.
      * intros [Hrest Hfresh']. split_and!; [done| |done|].
        -- intros o Hin Hin'. apply (Hfresh' o Hin').
           apply elem_of_union_l. by apply elem_of_list_to_set.
        -- intros o [Hin|Hin]%elem_of_app; [by apply Hfresh|].
           intros Ho. apply (Hfresh' o Hin). by apply elem_of_union_r.
      * intros [(_ & Hdisj & Hrest) Hfresh']. split; [done|].
        intros o Hin [Ho%elem_of_list_to_set|Ho]%elem_of_union.
        -- by apply (Hdisj o).
        -- apply (Hfresh' o); [|done]. apply elem_of_app. by right.
    + split; [done|]. rewrite NoDup_app. intros [(Hnd & _ & _) Hfresh].
      assert (add_orders orders combo = Some (list_to_set combo ∪ orders))
        as Hsome.
      { apply add_orders_Some. split_and!; [done| |done].
        intros o Hin. apply Hfresh, elem_of_app. by left. }
      congruence.
Qed.

Lemma is_valid_combination_true (combination : list slot) :
  is_valid_combination combination = true ↔
  NoDup (combination ≫= slot_orders).
Proof.
  unfold is_valid_combination. rewrite is_valid_from_true.
  split; [by intros [? _]|]. intros Hnd. split; [done|].
  intros o _. apply not_elem_of_empty.
Qed.



Lemma combos_lists_Ok od ddf lists :
  combos_lists od ddf = Ok lists →
  Forall2 (λ d l, ∃ valid, valid_combos od (Drones.Drone_ID d) = Ok valid
                           ∧ l = with_placeholder valid) ddf lists.
Proof.
  intros H%mapM_Ok. eapply Forall2_impl; [exact H|]. simpl.
  intros d l (valid & Hvalid & [= <-])%bind_Ok. by exists valid.
Qed.


(** ** Drones that cannot move *)


Lemma filter_nil_intro {A} (P : A → Prop) `{!∀ x, Decision (P x)} (l : list A) :
  (∀ x, x ∈ l → ¬ P x) → filter P l = [].
Proof.
  induction l as [|a l IH]; intros HP; [done|].
  rewrite filter_cons_False by (apply HP; by left).
  apply IH. intros ??. apply HP. by right.
Qed.

Lemma numbered_fleet_NoDup (fleet : list json.drone) :
  NoDup (Drones.Drone_ID <$>
           filter (λ d, Drones.available d = true)
             (imap (λ i d, {| Drones.Drone_ID := S i;
                              Drones.id := json.drone_id d;
                              Drones.max_payload := json.max_payload d;
                              Drones.max_dist := json.max_distance d;
                              Drones.speed := json.speed d;
                              Drones.available := json.available d |})
                   fleet)).
Proof.
  match goal with
  | |- NoDup (_ <$> filter _ ?L) =>
      apply (sublist_NoDup _ (Drones.Drone_ID <$> L))
  end.
  - rewrite fmap_imap. unfold compose. simpl.
    rewrite (imap_seq_0 fleet S), fmap_S_seq. apply NoDup_seq.
  - apply fmap_sublist, sublist_filter.
Qed.

Lemma drones_df_NoDup fleet ddf :
  drones_df fleet = Ok ddf → NoDup (Drones.Drone_ID <$> ddf).
Proof.
  unfold drones_df. destruct fleet as [|d0 fleet]; [done|].
  generalize (d0 :: fleet). clear. intros fleet [= <-].
  apply numbered_fleet_NoDup.
Qed.

Lemma filter_Drone_ID ddf d :
  NoDup (Drones.Drone_ID <$> ddf) → d ∈ ddf →
  filter (λ d', Drones.Drone_ID d' = Drones.Drone_ID d) ddf = [d].
Proof.
  induction ddf as [|d0 ddf IH]; [by intros _ ?%elem_of_nil|].
  rewrite fmap_cons, NoDup_cons, elem_of_cons, filter_cons.
  intros [Hd0 Hnd] [->|Hin].
  - rewrite decide_True by done. f_equal.
    apply filter_nil_intro. intros d' Hd' Heq.
    apply Hd0. rewrite <- Heq. apply list_elem_of_fmap. eauto.
  - rewrite decide_False; [by apply IH|].
    intros Heq. apply Hd0. rewrite Heq. apply list_elem_of_fmap. eauto.
Qed.

Lemma drone_columns_of_lookup_elem w td tl cum ddf d :
  NoDup (Drones.Drone_ID <$> ddf) → d ∈ ddf →
  drone_columns_of w td tl cum ddf !! Drones.Drone_ID d
  = Some (check_drone w td tl cum d).
Proof.
  intros Hnd Hd. by rewrite drone_columns_of_lookup, filter_Drone_ID.
Qed.

Lemma generated_route_members (ids route : list nat) :
  route ∈ all_combos_perms ids → route ≠ [] ∧ route ⊆ ids.
Proof.
  intros (c & Hc & Hne & Hr)%elem_of_all_combos_perms. split.
  - intros ->. by apply Permutation_nil_l in Hr.
  - intros a Ha. apply (sublist_subseteq _ _ Hc). by rewrite <- Hr.
Qed.





Lemma valid_combos_Ok od k valid :
  valid_combos od k = Ok valid →
  ∀ route, route ∈ valid →
    ∃ row c, row ∈ od ∧ OrderData.Order_Combos row = route
             ∧ OrderData.drone_columns row !! k = Some c
             ∧ OrderData.overall_check c = true.
Proof.
  unfold valid_combos. destruct od as [|r0 od]; [done|].
  generalize (r0 :: od). clear r0 od. intros od.
  intros (flagged & Hflagged & [= <-])%bind_Ok route
    ([row b] & -> & [Hb Hin]%list_elem_of_filter)%list_elem_of_fmap.
  simpl in *. subst b.
  destruct (mapM_Ok_elem_of _ _ _ _ Hflagged Hin)
    as (row' & Hrow' & (b & Hov & [= <- <-])%bind_Ok).
  unfold overall_of in Hov.
  destruct (OrderData.drone_columns row' !! k) as [c|] eqn:Hc; [|done].
  injection Hov as Hov. by exists row', c.
Qed.


(** ** The order on total times *)

Lemma np_leb_refl a : np.leb a a = true.
Proof. destruct a; simpl; try done. apply Qle_bool_iff, Qle_refl. Qed.

Lemma np_leb_total a b : np.leb a b = true ∨ np.leb b a = true.
Proof.
  destruct a as [p| | |], b as [q| | |]; simpl; auto.
  rewrite !Qle_bool_iff.
  destruct (Qlt_le_dec p q) as [?%Qlt_le_weak|?]; auto.
Qed.

Lemma np_leb_trans a b c :
  np.leb a b = true → np.leb b c = true → np.leb a c = true.
Proof.
  destruct a as [p| | |], b as [q| | |], c as [r| | |]; simpl; try done.
  rewrite !Qle_bool_iff. apply Qle_trans.
Qed.

Lemma np_ltb_false a b : np.ltb a b = false → np.leb b a = true.
Proof. unfold np.ltb. by intros ?%negb_false_iff. Qed.

Lemma np_ltb_true a b : np.ltb a b = true → np.leb a b = true.
Proof.
  unfold np.ltb. intros Hba%negb_true_iff.
  destruct (np_leb_total a b); congruence.
Qed.

(** ** The selector *)

Lemma first_smallest_spec best rest :
  first_smallest best rest ∈ best :: rest
  ∧ ∀ r, r ∈ best :: rest →
      np.leb (Total_Time (first_smallest best rest)) (Total_Time r) = true.
Proof.
  revert best. induction rest as [|r0 rest IH]; intros best; simpl.
  - split; [by left|]. intros r ->%list_elem_of_singleton. apply np_leb_refl.
  - destruct (np.ltb (Total_Time r0) (Total_Time best)) eqn:Hlt.
    + destruct (IH r0) as [Hin Hmin]. split; [by right|].
      intros r [->|Hr]%elem_of_cons; [|by apply Hmin].
      eapply np_leb_trans; [apply Hmin; by left|by apply np_ltb_true].
    + destruct (IH best) as [Hin Hmin]. split.
      * apply elem_of_cons in Hin as [->|Hin]; [by left|by do 2 right].
      * intros r [->|[->|Hr]%elem_of_cons]%elem_of_cons.
        -- apply Hmin. by left.
        -- eapply np_leb_trans; [apply Hmin; by left|by apply np_ltb_false].
        -- apply Hmin. by right.
Qed.

Lemma nsmallest_1_spec df :
  df ≠ [] →
  ∃ r, nsmallest_1 df = [r] ∧ r ∈ df
       ∧ ∀ a, a ∈ df → np.leb (Total_Time r) (Total_Time a) = true.
Proof.
  destruct df as [|r0 rest]; [done|]. intros _. simpl.
  destruct (first_smallest_spec r0 rest) as [Hin Hmin]. eauto.
Qed.

Lemma insert_by_time_Permutation r l : insert_by_time r l ≡ₚ r :: l.
Proof.
  induction l as [|r' l IH]; simpl; [done|].
  destruct (np.leb _ _); [done|]. by rewrite IH, Permutation_swap.
Qed.

Lemma sort_values_Permutation df : sort_values df ≡ₚ df.
Proof.
  induction df as [|r df IH]; simpl; [done|].
  by rewrite insert_by_time_Permutation, IH.
Qed.

Lemma final_output_full df :
  (∃ a, a ∈ df ∧ ValidCombos.contains_all_orders a = true) →
  ∃ r, final_output df = [r] ∧ r ∈ df
       ∧ ValidCombos.contains_all_orders r = true
       ∧ ∀ a, a ∈ df → ValidCombos.contains_all_orders a = true →
           np.leb (Total_Time r) (Total_Time a) = true.
Proof.
  intros (a & Ha & Hfull). unfold final_output.
  assert (existsb ValidCombos.contains_all_orders df = true) as ->.
  { apply existsb_exists. exists a. by rewrite <- list_elem_of_In. }
  destruct (nsmallest_1_spec
              (filter (λ r, ValidCombos.contains_all_orders r = true) df))
    as (r & Hr & [Hrfull Hrin]%list_elem_of_filter & Hmin).
  { intros Hnil.
    by apply (filter_nil_not_elem_of
                (λ r, ValidCombos.contains_all_orders r = true) df a Hnil). }
  exists r. split_and!; [done..|].
  intros a' Ha' Hfull'. apply Hmin. by apply list_elem_of_filter.
Qed.

Lemma final_output_partial df :
  df ≠ [] →
  (∀ a, a ∈ df → ValidCombos.contains_all_orders a = false) →
  ∃ r, final_output df = [r] ∧ r ∈ df
       ∧ (∀ a, a ∈ df → ValidCombos.count a ≤ ValidCombos.count r)
       ∧ ∀ a, a ∈ df → ValidCombos.count a = ValidCombos.count r →
           np.leb (Total_Time r) (Total_Time a) = true.
Proof.
  intros Hne Hnone. unfold final_output.
  assert (existsb ValidCombos.contains_all_orders df = false) as ->.
  { apply not_true_is_false. intros (a & Ha%list_elem_of_In & Hfull)%existsb_exists.
    rewrite (Hnone a Ha) in Hfull. done. }
  set (max_count := max_list (ValidCombos.count <$> df)).
  assert (max_count ∈ ValidCombos.count <$> df) as (m & Hm & Hmin)%list_elem_of_fmap.
  { apply max_list_elem_of. by intros ?%fmap_nil_inv. }
  destruct (nsmallest_1_spec
              (filter (λ r, ValidCombos.count r = max_count) df))
    as (r & Hr & [Hrmax Hrin]%list_elem_of_filter & Hleast).
  { intros Hnil.
    by apply (filter_nil_not_elem_of
                (λ r, ValidCombos.count r = max_count) df m Hnil). }
  exists r. simpl in *. split_and!; [done..| |].
  - intros a Ha. rewrite Hrmax. apply max_list_elem_of_le.
    apply list_elem_of_fmap. eauto.
  - intros a Ha Hcount. apply Hleast, list_elem_of_filter.
    split; [congruence|done].
Qed.

Lemma elem_of_sort_rank all_order_ids frame r :
  r ∈ sort_values (rank all_order_ids frame) ↔
  ∃ a, a ∈ frame ∧ r = rank_row all_order_ids a.
Proof.
  rewrite sort_values_Permutation. unfold rank. rewrite list_elem_of_fmap.
  naive_solver.
Qed.

(** C5.  When some valid assignment covers every order, the selected row
    covers every order and no fully covering row has a smaller total
    time. *)
Theorem selector_coverage_priority (all_order_ids : gset nat)
    (frame : list ValidCombos.row) :
  (∃ a, a ∈ frame
        ∧ combo_orders (ValidCombos.Valid_combinations a) = all_order_ids) →
  ∃ r, final_output (sort_values (rank all_order_ids frame)) = [r]
       ∧ ValidCombos.base r ∈ frame
       ∧ combo_orders (ValidCombos.Valid_combinations (ValidCombos.base r))
         = all_order_ids
       ∧ ∀ a, a ∈ frame →
           combo_orders (ValidCombos.Valid_combinations a) = all_order_ids →
           np.leb (ValidCombos.Total_Time (ValidCombos.base r))
                  (ValidCombos.Total_Time a) = true.
Proof.
  intros (a & Ha & Hfull).
  destruct (final_output_full (sort_values (rank all_order_ids frame)))
    as (r & Hr & (b & Hb & ->)%elem_of_sort_rank & Hrfull & Hmin).
  { exists (rank_row all_order_ids a). split; [apply elem_of_sort_rank; eauto|].
    simpl. by apply bool_decide_eq_true. }
  exists (rank_row all_order_ids b).
  simpl in *. split_and!; [done..|by apply bool_decide_eq_true in Hrfull|].
  intros a' Ha' Hfull'.
  apply (Hmin (rank_row all_order_ids a')).
  - apply elem_of_sort_rank; eauto.
  - simpl. by apply bool_decide_eq_true.
Qed.

(** C6.  When no valid assignment covers every order, the selected row
    covers as many orders as any row does and no row with that count has
    a smaller total time. *)
Theorem selector_max_count (all_order_ids : gset nat)
    (frame : list ValidCombos.row) :
  frame ≠ [] →
  (∀ a, a ∈ frame →
     combo_orders (ValidCombos.Valid_combinations a) ≠ all_order_ids) →
  ∃ r, final_output (sort_values (rank all_order_ids frame)) = [r]
       ∧ ValidCombos.base r ∈ frame
       ∧ (∀ a, a ∈ frame →
            count_orders (ValidCombos.Valid_combinations a)
            ≤ count_orders (ValidCombos.Valid_combinations (ValidCombos.base r)))
       ∧ ∀ a, a ∈ frame →
           count_orders (ValidCombos.Valid_combinations a)
           = count_orders (ValidCombos.Valid_combinations (ValidCombos.base r)) →
           np.leb (ValidCombos.Total_Time (ValidCombos.base r))
                  (ValidCombos.Total_Time a) = true.
Proof.
  intros Hne Hnone.
  destruct (final_output_partial (sort_values (rank all_order_ids frame)))
    as (r & Hr & (b & Hb & ->)%elem_of_sort_rank & Hmax & Hmin).
  { intros Hnil. destruct frame as [|r frame]; [done|].
    pose proof (sort_values_Permutation (rank all_order_ids (r :: frame))) as Hp.
    rewrite Hnil in Hp. by apply Permutation_nil_l in Hp. }
  { intros r (a & Ha & ->)%elem_of_sort_rank. simpl.
    apply bool_decide_eq_false. by apply Hnone. }
  exists (rank_row all_order_ids b). simpl. split_and!; [done..| |].
  - intros a Ha. apply (Hmax (rank_row all_order_ids a)).
    apply elem_of_sort_rank; eauto.
  - intros a Ha Hcount. apply (Hmin (rank_row all_order_ids a)).
    + apply elem_of_sort_rank; eauto.
    + done.
Qed.


Lemma selector_coverage_priority_witness :
  ∃ frame r,
    valid_combos_frame two_orders one_drone = Ok frame
    ∧ final_output (sort_values (rank (list_to_set [1; 2]) frame)) = [r]
    ∧ combo_orders (ValidCombos.Valid_combinations (ValidCombos.base r))
      = list_to_set [1; 2].
Proof.
  assert (∃ frame, valid_combos_frame two_orders one_drone = Ok frame
                   ∧ Exists (λ a, combo_orders (ValidCombos.Valid_combinations a)
                                  = list_to_set [1; 2]) frame)
    as (frame & Hframe & Hfull%Exists_exists).
  { vm_compute. eexists. split; [reflexivity|]. do 2 apply Exists_cons_tl.
    apply Exists_cons_hd. vm_compute. reflexivity. }
  destruct (selector_coverage_priority (list_to_set [1; 2]) frame Hfull)
    as (r & Hr & _ & Hcov & _).
  by exists frame, r.
Defined.

Lemma selector_max_count_witness :
  ∃ frame r,
    valid_combos_frame two_orders weak_drone = Ok frame
    ∧ final_output (sort_values (rank (list_to_set [1; 2]) frame)) = [r]
    ∧ count_orders (ValidCombos.Valid_combinations (ValidCombos.base r)) = 1.
Proof.
  assert (∃ frame, valid_combos_frame two_orders weak_drone = Ok frame
            ∧ frame ≠ []
            ∧ Forall (λ a, combo_orders (ValidCombos.Valid_combinations a)
                           ≠ list_to_set [1; 2]) frame
            ∧ Exists (λ a, count_orders (ValidCombos.Valid_combinations a) = 1)
                     frame)
    as (frame & Hframe & Hne & Hnone & (a & Ha & Hcount)%Exists_exists).
  { vm_compute. eexists. split; [reflexivity|]. split; [done|]. split.
    - repeat constructor; vm_compute; discriminate.
    - apply Exists_cons_hd. vm_compute. reflexivity. }
  rewrite Forall_forall in Hnone.
  destruct (selector_max_count (list_to_set [1; 2]) frame Hne Hnone)
    as (r & Hr & Hin & Hmax & _).
  exists frame, r. split_and!; [done..|].
  pose proof (Hmax a Ha) as Hle. rewrite Hcount in Hle.
  assert (count_orders (ValidCombos.Valid_combinations (ValidCombos.base r)) ≤ 1);
    [|lia].
  clear Hle. revert Hin. generalize (ValidCombos.base r). clear -Hframe.
  injection Hframe as <-. intros b Hb.
  repeat (apply elem_of_cons in Hb as [->|Hb]; [vm_compute; lia|]).
  by apply elem_of_nil in Hb.
Defined.

(** ** No orders, no drones *)

Lemma drones_df_none_available fleet :
  fleet ≠ [] → (∀ d, d ∈ fleet → json.available d = false) →
  drones_df fleet = Ok [].
Proof.
  intros Hne Hnone. unfold drones_df. destruct fleet as [|d0 fleet]; [done|].
  f_equal. apply filter_nil_intro.
  intros d (i & d' & -> & Hi)%elem_of_lookup_imap. simpl.
  intros Hd. rewrite Hnone in Hd; [done|].
  by eapply list_elem_of_lookup_2.
Qed.

(** C2.  With no available drone -- an empty fleet, or every availability
    flag false -- the script ends in an exception and returns no
    assignment. *)
Theorem no_available_drone_raises (data : json.input) :
  (∀ d, d ∈ json.fleet data → json.available d = false) →
  raises (main data).
Proof.
  intros Hnone. unfold main, raises.
  destruct (decide (json.fleet data = [])) as [Hfleet|Hfleet].
  { rewrite Hfleet. simpl. eauto. }
  rewrite (drones_df_none_available _ Hfleet Hnone). simpl.
  destruct (order_data_df _ []) as [od|e]; simpl; eauto.
Qed.

Lemma no_available_drone_raises_witness :
  (∀ d, d ∈ grounded_fleet → json.available d = false)
  ∧ main {| json.orders := two_orders; json.fleet := grounded_fleet |}
    = Raise ValueError.
Proof.
  assert (∀ d, d ∈ grounded_fleet → json.available d = false) as Hnone.
  { intros d ->%list_elem_of_singleton. reflexivity. }
  split; [done|].
  destruct (no_available_drone_raises
              {| json.orders := two_orders; json.fleet := grounded_fleet |}
              Hnone) as [e He].
  rewrite He. f_equal. vm_compute in He. by injection He.
Defined.

Lemma drones_df_some_available fleet :
  (∃ d, d ∈ fleet ∧ json.available d = true) →
  ∃ d ddf, drones_df fleet = Ok (d :: ddf).
Proof.
  intros (d & Hd & Hav). unfold drones_df.
  destruct fleet as [|d0 fleet]; [by apply elem_of_nil in Hd|].
  revert Hd. generalize (d0 :: fleet). clear d0 fleet. intros fleet Hd.
  apply list_elem_of_lookup in Hd as [i Hi].
  match goal with
  | |- ∃ d ddf, Ok (filter ?P ?L) = _ =>
      destruct (filter P L) as [|d' ddf] eqn:Hfilter; [exfalso|by eauto]
  end.
  eapply (filter_nil_not_elem_of _ _ _ Hfilter); cycle 1.
  - by eapply elem_of_lookup_imap_2.
  - exact Hav.
Qed.

(** C3.  With no orders and at least one available drone the script
    raises [KeyError] at line 127 instead of selecting the all-idle
    assignment. *)
Theorem no_orders_raises (fleet : list json.drone) :
  (∃ d, d ∈ fleet ∧ json.available d = true) →
  main {| json.orders := []; json.fleet := fleet |} = Raise KeyError.
Proof.
  intros (d & ddf & Hddf)%drones_df_some_available.
  unfold main. cbn [json.orders json.fleet]. rewrite Hddf. reflexivity.
Qed.

Lemma no_orders_raises_witness :
  (∃ d, d ∈ one_drone ∧ json.available d = true)
  ∧ main {| json.orders := []; json.fleet := one_drone |} = Raise KeyError.
Proof.
  assert (∃ d, d ∈ one_drone ∧ json.available d = true) as Hsome.
  { eexists. split; [by left|reflexivity]. }
  split; [done|]. exact (no_orders_raises one_drone Hsome).
Defined.

(** ** The script returns on non-degenerate input *)

Lemma order_ids_orders_df orders :
  order_ids (orders_df orders) = seq 1 (length orders).
Proof.
  unfold order_ids, orders_df. rewrite fmap_imap. unfold compose. simpl.
  by rewrite (imap_seq_0 orders S), fmap_S_seq.
Qed.






Lemma order_data_df_row odf ddf od row :
  order_data_df odf ddf = Ok od → row ∈ od →
  OrderData.Order_Combos row ≠ []
  ∧ OrderData.Order_Combos row ⊆ order_ids odf
  ∧ ∀ d, d ∈ ddf →
      is_Some (OrderData.drone_columns row !! Drones.Drone_ID d).
Proof.
  intros Hod Hrow.
  destruct (mapM_Ok_elem_of _ _ _ _ Hod Hrow) as (route & Hroute & Hrow').
  apply generated_route_members in Hroute as [Hne Hsub].
  apply dist_data_row_Ok in Hrow' as (dl & rel & cum & td & _ & _ & _ & _ & ->).
  simpl. split_and!; [done..|]. intros d Hd.
  rewrite drone_columns_of_lookup.
  destruct (filter _ ddf) as [|d' l] eqn:Hfilter using rev_ind.
  - by destruct (filter_nil_not_elem_of _ _ d Hfilter).
  - rewrite last_snoc. by eexists.
Qed.





Lemma drone_metrics_combo od s speed cols :
  drone_metrics od s speed = Ok cols → ValidCombos.combo cols = s.
Proof.
  unfold drone_metrics. intros H. inv_bind. by subst cols.
Qed.

Lemma valid_combinations_known od ddf lists combination :
  combos_lists od ddf = Ok lists →
  combination ∈ valid_combinations lists →
  Forall (slot_known od) combination ∧ length combination = length ddf.
Proof.
  intros Hlists%combos_lists_Ok [_ Hprod%elem_of_product]%list_elem_of_filter.
  split.
  - apply Forall_forall. intros s (i & Hi)%list_elem_of_lookup.
    destruct (Forall2_lookup_l _ _ _ _ _ Hprod Hi) as (l & Hl & Hin).
    destruct (Forall2_lookup_r _ _ _ _ _ Hlists Hl)
      as (d & _ & valid & Hvalid & ->).
    apply elem_of_app in Hin as [(c & -> & Hc)%list_elem_of_fmap
                                 | ->%list_elem_of_singleton]; [|done].
    destruct (valid_combos_Ok _ _ _ Hvalid c Hc) as (row & _ & ? & ? & _).
    by exists row.
  - rewrite (Forall2_length _ _ _ Hprod). symmetry.
    by eapply Forall2_length.
Qed.


Lemma valid_combos_row_Ok od ddf combination row :
  Forall (slot_known od) combination →
  valid_combos_row od ddf combination = Ok row →
  Forall (λ cols, slot_known od (ValidCombos.combo cols))
         (ValidCombos.drones row).
Proof.
  intros Hknown (drones & Hdrones & [= <-])%bind_Ok. simpl.
  apply Forall_forall. intros cols Hcols.
  destruct (mapM_Ok_elem_of _ _ _ _ Hdrones Hcols) as ([s d] & Hin & Hm).
  rewrite (drone_metrics_combo _ _ _ _ Hm). simpl.
  rewrite Forall_forall in Hknown. apply Hknown. by eapply elem_of_zip_l.
Qed.

Lemma final_output_nonempty (df : list ValidCombos.ranked) :
  df ≠ [] → ∃ r, final_output df = [r] ∧ r ∈ df.
Proof.
  intros Hne.
  destruct (existsb ValidCombos.contains_all_orders df) eqn:Hany.
  - apply existsb_exists in Hany as (a & Ha%list_elem_of_In & Hfull).
    destruct (final_output_full df) as (r & ? & ? & _); eauto.
  - destruct (final_output_partial df Hne) as (r & ? & ? & _); [|by eauto].
    intros a Ha. apply not_true_is_false. intros Hfull.
    assert (existsb ValidCombos.contains_all_orders df = true); [|congruence].
    apply existsb_exists. exists a. by rewrite <- list_elem_of_In.
Qed.



(** ** What the selector can return *)





(** ** More on route metrics *)

Lemma sum_Z_from (a : Z) (l : list Z) : foldl Z.add a l = (a + sum_Z l)%Z.
Proof.
  unfold sum_Z. revert a. induction l as [|b l IH]; intros a; simpl; [lia|].
  rewrite (IH (a + b)%Z), (IH (0 + b)%Z). lia.
Qed.

Lemma sum_Z_cons (a : Z) (l : list Z) : sum_Z (a :: l) = (a + sum_Z l)%Z.
Proof. unfold sum_Z at 1. simpl. apply sum_Z_from. Qed.

Lemma length_legs prev rest : length (legs prev rest) = length rest.
Proof. revert prev. induction rest; intros; simpl; auto. Qed.

Lemma length_running last rel : length (running last rel) = length rel.
Proof. revert last. induction rel; intros; simpl; auto. Qed.

Lemma running_lookup last rel i :
  i < length rel →
  running last rel !! i = Some (last + sum_Z (take (S i) rel))%Z.
Proof.
  revert last i. induction rel as [|r rel IH]; intros last i Hi; simpl in *;
    [lia|].
  destruct i as [|i].
  - simpl. rewrite ?take_0. f_equal; unfold sum_Z; simpl; lia.
  - change (running (last + r) rel !! i
            = Some (last + sum_Z (r :: take (S i) rel))%Z).
    rewrite IH by lia. f_equal. rewrite (sum_Z_cons r). lia.
Qed.





(** X1.  The cumulative distances are the prefix sums of the legs: both
    lists have one entry per stop, and the entry for stop [i] is the sum
    of the first [i + 1] legs. *)
Theorem cumulative_distance_prefix_sums (dist_list : list (Z * Z)) :
  dist_list ≠ [] →
  ∃ rel cum,
    relative_distance_of dist_list = Ok rel
    ∧ cumulative_distance_of rel = Ok cum
    ∧ length rel = length dist_list
    ∧ length cum = length dist_list
    ∧ ∀ i, i < length dist_list →
        cum !! i = Some (sum_Z (take (S i) rel)).
Proof.
  intros Hne. destruct dist_list as [|p rest]; [done|]. simpl.
  eexists _, _. split_and!; [done|done|..].
  - simpl. by rewrite length_legs.
  - simpl. by rewrite length_running, length_legs.
  - intros [|i] Hi.
    + simpl. rewrite ?take_0. f_equal; unfold sum_Z; simpl; lia.
    + change (running (Z.abs p.1 + Z.abs p.2) (legs p rest) !! i
              = Some (sum_Z ((Z.abs p.1 + Z.abs p.2)%Z
                             :: take (S i) (legs p rest)))).
      rewrite running_lookup by (rewrite length_legs; simpl in Hi; lia).
      by rewrite sum_Z_cons.
Qed.

Lemma cumulative_distance_prefix_sums_witness :
  [(3, 4); (0, 4); (0, 0)]%Z ≠ []
  ∧ ∃ rel cum,
      relative_distance_of [(3, 4); (0, 4); (0, 0)]%Z = Ok rel
      ∧ cumulative_distance_of rel = Ok cum
      ∧ cum !! 2 = Some 14%Z.
Proof.
  assert ([(3, 4); (0, 4); (0, 0)]%Z ≠ []) as Hne by done.
  split; [done|].
  destruct (cumulative_distance_prefix_sums _ Hne)
    as (rel & cum & Hrel & Hcum & _ & _ & Hsum).
  exists rel, cum. split_and!; [done..|].
  rewrite (Hsum 2) by (simpl; lia). injection Hrel as <-. reflexivity.
Defined.






(** ** Lookups by key *)

Lemma filter_key_unique {A K} `{EqDecision K} (f : A → K) (l : list A) a :
  NoDup (f <$> l) → a ∈ l → filter (λ b, f b = f a) l = [a].
Proof.
  induction l as [|a0 l IH]; [by intros _ ?%elem_of_nil|].
  rewrite fmap_cons, NoDup_cons, elem_of_cons, filter_cons.
  intros [Ha0 Hnd] [->|Hin].
  - rewrite decide_True by done. f_equal.
    apply filter_nil_intro. intros b Hb Heq.
    apply Ha0. rewrite <- Heq. apply list_elem_of_fmap. eauto.
  - rewrite decide_False; [by apply IH|].
    intros Heq. apply Ha0. rewrite Heq. apply list_elem_of_fmap. eauto.
Qed.

Lemma loc_order_unique {A} odf r (col : Orders.row → A) :
  NoDup (order_ids odf) → r ∈ odf →
  loc_order odf (Orders.ID r) col = Ok (col r).
Proof.
  intros Hnd Hr. unfold loc_order.
  by rewrite (filter_key_unique Orders.ID odf r Hnd Hr).
Qed.

Lemma NoDup_order_ids_orders_df orders : NoDup (order_ids (orders_df orders)).
Proof. rewrite order_ids_orders_df. apply NoDup_seq. Qed.

(** X4.  On a route that visits its orders in ascending identifier order
    the deadline list the check uses is the list of deadlines in route
    order. *)
Theorem ascending_route_deadlines (orders : list json.order)
    (route : list nat) :
  route `sublist_of` order_ids (orders_df orders) →
  deadlines_in_route_order (orders_df orders) route
  = Ok (time_list_of (orders_df orders) route).
Proof.
  pose proof (NoDup_order_ids_orders_df orders) as Hnd.
  revert Hnd. generalize (orders_df orders). intros odf Hnd Hsub.
  unfold deadlines_in_route_order, time_list_of, loc_isin, order_ids in *.
  assert (route = Orders.ID <$> filter (λ r, Orders.ID r ∈ route) odf) as Hr.
  { clear -Hnd Hsub. revert route Hsub.
    induction odf as [|r odf IH]; intros route Hsub.
    - by apply sublist_nil_r in Hsub as ->.
    - rewrite fmap_cons in Hnd, Hsub. apply NoDup_cons in Hnd as [Hr Hnd].
      apply sublist_cons_r in Hsub as [Hsub|(route' & -> & Hsub)].
      + rewrite filter_cons_False; [by apply IH|].
        intros Hin. apply Hr. by apply (sublist_subseteq _ _ Hsub).
      + rewrite filter_cons_True by left. rewrite fmap_cons. f_equal.
        rewrite (IH Hnd route' Hsub) at 1. f_equal.
        apply list_filter_ext_in. intros r' Hr'. rewrite elem_of_cons.
        split; [by right|]. intros [Heq|]; [|done].
        destruct Hr. rewrite <- Heq. apply list_elem_of_fmap. eauto. }
  set (rows := filter (λ r, Orders.ID r ∈ route) odf) in *.
  assert (∀ r, r ∈ rows → r ∈ odf) as Hrows.
  { intros r Hin. unfold rows in Hin. by apply list_elem_of_filter in Hin as [_ ?]. }
  clearbody rows. subst route. clear Hsub.
  apply mapM_Ok.
  induction rows as [|r rows IH]; simpl; constructor.
  - apply loc_order_unique; [done|]. apply Hrows. by left.
  - apply IH. intros ??. apply Hrows. by right.
Qed.

Lemma ascending_route_deadlines_witness :
  [1; 2] `sublist_of` order_ids (orders_df two_orders)
  ∧ deadlines_in_route_order (orders_df two_orders) [1; 2] = Ok [10; 19]%Z.
Proof.
  assert ([1; 2] `sublist_of` order_ids (orders_df two_orders)) as Hsub.
  { simpl. by repeat constructor. }
  split; [done|]. by rewrite (ascending_route_deadlines two_orders [1; 2] Hsub).
Defined.

(** Each generated route has exactly one row in [order_data_df]. *)
Lemma order_data_df_routes odf ddf od :
  order_data_df odf ddf = Ok od →
  OrderData.Order_Combos <$> od = all_combos_perms (order_ids odf).
Proof.
  unfold order_data_df. intros H%mapM_Ok.
  induction H as [|route row routes od Hrow _ IH]; [done|].
  rewrite fmap_cons, IH. f_equal.
  by apply dist_data_row_Ok in Hrow as (? & ? & ? & ? & _ & _ & _ & _ & ->).
Qed.

(** The row [get_drone_metrics] finds for a route is the only row of that
    route. *)
Lemma get_drone_metrics_row {A} orders ddf od row
    (column_name : OrderData.row → A) :
  order_data_df (orders_df orders) ddf = Ok od → row ∈ od →
  get_drone_metrics od (Combo (OrderData.Order_Combos row)) column_name
  = Ok (Cell (column_name row)).
Proof.
  intros Hod Hrow. unfold get_drone_metrics.
  destruct od as [|r0 od']; [by apply elem_of_nil in Hrow|].
  rewrite (filter_key_unique OrderData.Order_Combos (r0 :: od') row);
    [done| |done].
  rewrite (order_data_df_routes _ _ _ Hod).
  apply NoDup_all_combos_perms, NoDup_order_ids_orders_df.
Qed.

(** X5.  [get_drone_metrics] returns 0 for the placeholder and, for the
    route of any row of [order_data_df], the cell of that very row. *)
Theorem get_drone_metrics_lookup {A} (orders : list json.order) ddf od
    (column_name : OrderData.row → A) :
  order_data_df (orders_df orders) ddf = Ok od →
  get_drone_metrics od Placeholder column_name = Ok Zero
  ∧ ∀ row, row ∈ od →
      get_drone_metrics od (Combo (OrderData.Order_Combos row)) column_name
      = Ok (Cell (column_name row)).
Proof.
  intros Hod. split; [done|]. intros row Hrow.
  by eapply get_drone_metrics_row.
Qed.

Lemma get_drone_metrics_lookup_witness :
  ∃ od,
    order_data_df (orders_df two_orders) [] = Ok od
    ∧ get_drone_metrics od (Combo [2; 1]) OrderData.total_distance
      = Ok (Cell 20%Z).
Proof.
  assert (∃ od row, order_data_df (orders_df two_orders) [] = Ok od
                    ∧ row ∈ od
                    ∧ OrderData.Order_Combos row = [2; 1]
                    ∧ OrderData.total_distance row = 20%Z)
    as (od & row & Hod & Hrow & Hroute & Htotal).
  { vm_compute. eexists _, _. split; [reflexivity|].
    split; [do 3 right; left|]. done. }
  exists od. split; [done|].
  destruct (get_drone_metrics_lookup two_orders [] od
              OrderData.total_distance Hod) as [_ Hlookup].
  by rewrite <- Hroute, <- Htotal, Hlookup.
Defined.

(** ** More on the enumeration of assignments *)

(** X6.  A tuple passes [is_valid_combination] exactly when no order
    occurs twice in it, within a route or across routes; which drone holds
    which route does not matter. *)
Theorem is_valid_combination_spec (combination : list slot) :
  (is_valid_combination combination = true ↔
   NoDup (combination ≫= slot_orders))
  ∧ ∀ combination', combination ≡ₚ combination' →
      is_valid_combination combination' = is_valid_combination combination.
Proof.
  split; [apply is_valid_combination_true|].
  intros combination' Hperm.
  pose proof (is_valid_combination_true combination) as H1.
  pose proof (is_valid_combination_true combination') as H2.
  assert (NoDup (combination ≫= slot_orders)
          ↔ NoDup (combination' ≫= slot_orders)) as Hiff
    by by rewrite Hperm.
  destruct (is_valid_combination combination),
    (is_valid_combination combination'); try done.
  - apply H2, Hiff, H1. done.
  - symmetry. apply H1, Hiff, H2. done.
Qed.

(** X7.  The valid combinations are exactly the tuples that take one
    candidate from each drone's list and use no order twice. *)
Theorem valid_combinations_spec (lists : list (list slot))
    (combination : list slot) :
  combination ∈ valid_combinations lists ↔
  Forall2 (λ s candidates, s ∈ candidates) combination lists
  ∧ NoDup (combination ≫= slot_orders).
Proof.
  unfold valid_combinations.
  rewrite list_elem_of_filter, elem_of_product, is_valid_combination_true.
  tauto.
Qed.

(** X8.  The cross product has one tuple for every choice of candidates:
    its size is the product of the lengths of the candidate lists. *)
Theorem length_product {A} (ls : list (list A)) :
  length (itertools.product ls) = foldr (λ l n, length l * n) 1 ls.
Proof.
  induction ls as [|l ls IH]; simpl; [done|].
  rewrite (length_bind_const _ _ (length (itertools.product ls))).
  - by rewrite IH.
  - intros a _. apply length_fmap.
Qed.

(** The checks behind a route in a drone's candidate list. *)
Lemma candidate_route_checks fleet odf ddf od lists i d l c :
  drones_df fleet = Ok ddf →
  order_data_df odf ddf = Ok od →
  combos_lists od ddf = Ok lists →
  ddf !! i = Some d → lists !! i = Some l → Combo c ∈ l →
  ∃ row, row ∈ od ∧ OrderData.Order_Combos row = c
    ∧ (OrderData.weight row ≤ Drones.max_payload d)%Z
    ∧ (OrderData.total_distance row ≤ Drones.max_dist d)%Z
    ∧ delivery_time_check_of (OrderData.time row)
        (OrderData.cumulative_distance row) (Drones.speed d) = true.
Proof.
  intros Hnd%drones_df_NoDup Hod Hlists Hd Hl Hmem.
  assert (d ∈ ddf) as Hin by by eapply list_elem_of_lookup_2.
  apply combos_lists_Ok in Hlists.
  destruct (Forall2_lookup_l _ _ _ _ _ Hlists Hd)
    as (l' & Hl' & valid & Hvalid & ->).
  rewrite Hl in Hl'. injection Hl' as ->.
  apply elem_of_app in Hmem as [(c' & [= <-] & Hc')%list_elem_of_fmap
                                | Hmem%list_elem_of_singleton]; [|done].
  destruct (valid_combos_Ok _ _ _ Hvalid c Hc')
    as (row & checks & Hrow & Hroute & Hchecks & Hoverall).
  exists row. split_and!; [done..| | |];
    destruct (mapM_Ok_elem_of _ _ _ _ Hod Hrow) as (route & _ & Hrow');
    apply dist_data_row_Ok in Hrow'
      as (dl & rel & cum & td & _ & _ & _ & _ & ->);
    simpl in *;
    rewrite drone_columns_of_lookup_elem in Hchecks by done;
    injection Hchecks as <-; simpl in Hoverall;
    apply andb_true_iff in Hoverall as [[Hw Hdist]%andb_true_iff Htime].
  - by apply bool_decide_eq_true in Hw.
  - by apply bool_decide_eq_true in Hdist.
  - done.
Qed.

(** X9.  A route assigned to a drone in a valid combination respects that
    drone's limits: its weight is within the payload, its round trip
    within the range, and the deadline check holds at the drone's speed. *)
Theorem assigned_routes_feasible fleet odf ddf od lists combination i d c :
  drones_df fleet = Ok ddf →
  order_data_df odf ddf = Ok od →
  combos_lists od ddf = Ok lists →
  combination ∈ valid_combinations lists →
  ddf !! i = Some d →
  combination !! i = Some (Combo c) →
  ∃ row, row ∈ od ∧ OrderData.Order_Combos row = c
    ∧ (OrderData.weight row ≤ Drones.max_payload d)%Z
    ∧ (OrderData.total_distance row ≤ Drones.max_dist d)%Z
    ∧ delivery_time_check_of (OrderData.time row)
        (OrderData.cumulative_distance row) (Drones.speed d) = true.
Proof.
  intros Hddf Hod Hlists [_ Hprod%elem_of_product]%list_elem_of_filter
    Hd Hc.
  destruct (Forall2_lookup_l _ _ _ _ _ Hprod Hc) as (l & Hl & Hmem).
  by eapply candidate_route_checks.
Qed.

Lemma assigned_routes_feasible_witness :
  ∃ ddf od lists d row,
    drones_df weak_drone = Ok ddf
    ∧ order_data_df (orders_df two_orders) ddf = Ok od
    ∧ combos_lists od ddf = Ok lists
    ∧ [Combo [2]] ∈ valid_combinations lists
    ∧ ddf !! 0 = Some d
    ∧ row ∈ od ∧ OrderData.Order_Combos row = [2]
    ∧ (OrderData.weight row ≤ Drones.max_payload d)%Z.
Proof.
  assert (∃ ddf, drones_df weak_drone = Ok ddf) as [ddf Hddf]
    by (vm_compute; eauto).
  assert (∃ od lists d, order_data_df (orders_df two_orders) ddf = Ok od
            ∧ combos_lists od ddf = Ok lists
            ∧ [Combo [2]] ∈ valid_combinations lists
            ∧ ddf !! 0 = Some d)
    as (od & lists & d & Hod & Hlists & Hvalid & Hd).
  { injection Hddf as <-. vm_compute. eexists _, _, _.
    split; [reflexivity|]. split; [reflexivity|].
    split; [right; left|reflexivity]. }
  destruct (assigned_routes_feasible weak_drone (orders_df two_orders)
              ddf od lists [Combo [2]] 0 d [2] Hddf Hod Hlists Hvalid Hd
              eq_refl)
    as (row & Hrow & Hroute & Hweight & _).
  exists ddf, od, lists, d, row. by split_and!.
Defined.

Lemma is_valid_combination_spec_witness :
  [Combo [1]; Combo [2]] ≡ₚ [Combo [2]; Combo [1]]
  ∧ is_valid_combination [Combo [2]; Combo [1]] = true.
Proof.
  assert ([Combo [1]; Combo [2]] ≡ₚ [Combo [2]; Combo [1]]) as Hperm
    by apply perm_swap.
  split; [done|].
  destruct (is_valid_combination_spec [Combo [1]; Combo [2]]) as [_ Hinv].
  by rewrite (Hinv _ Hperm).
Defined.

(** ** More on the selection *)

Lemma combo_orders_list_to_set (combination : list slot) :
  combo_orders combination = list_to_set (combination ≫= slot_orders).
Proof.
  unfold combo_orders.
  assert (∀ acc : gset nat,
    foldl (λ acc drone_combo,
             match drone_combo with
             | Placeholder => acc
             | Combo c => acc ∪ list_to_set c
             end) acc combination
    = acc ∪ list_to_set (combination ≫= slot_orders)) as Hgen.
  { induction combination as [|[|c] rest IH]; intros acc; csimpl.
    - by rewrite (right_id_L ∅ (∪)).
    - apply IH.
    - rewrite IH, list_to_set_app_L. by rewrite (assoc_L (∪)). }
  by rewrite Hgen, (left_id_L ∅ (∪)).
Qed.

(** X10.  In a combination that passed the validity filter the order
    count is the number of stops of all its routes together. *)
Theorem count_orders_valid (combination : list slot) :
  is_valid_combination combination = true →
  count_orders combination = length (combination ≫= slot_orders).
Proof.
  intros Hvalid%is_valid_combination_true. unfold count_orders.
  rewrite combo_orders_list_to_set. by apply size_list_to_set.
Qed.

Lemma count_orders_valid_witness :
  is_valid_combination [Combo [2; 1]; Placeholder; Combo [3]] = true
  ∧ count_orders [Combo [2; 1]; Placeholder; Combo [3]] = 3.
Proof.
  assert (is_valid_combination [Combo [2; 1]; Placeholder; Combo [3]] = true)
    as Hvalid by (vm_compute; reflexivity).
  split; [done|]. by rewrite (count_orders_valid _ Hvalid).
Defined.

(** X11.  For a combination over the known orders, the coverage flag is
    set exactly when the order count equals the number of orders, and the
    count never exceeds that number. *)
Theorem full_coverage_iff_count (all_order_ids : gset nat)
    (combination : list slot) :
  combo_orders combination ⊆ all_order_ids →
  count_orders combination ≤ size all_order_ids
  ∧ (check_all_orders_present all_order_ids combination = true ↔
     count_orders combination = size all_order_ids).
Proof.
  intros Hsub. unfold count_orders, check_all_orders_present. split.
  - by apply subseteq_size.
  - rewrite bool_decide_eq_true. split; [by intros ->|].
    intros Hsize. apply set_subseteq_size_eq; [done|lia].
Qed.

Lemma full_coverage_iff_count_witness :
  combo_orders [Combo [2]; Combo [1]] ⊆ list_to_set [1; 2]
  ∧ check_all_orders_present (list_to_set [1; 2]) [Combo [2]; Combo [1]]
    = true.
Proof.
  assert (combo_orders [Combo [2]; Combo [1]] ⊆ (list_to_set [1; 2] : gset nat))
    as Hsub.
  { rewrite combo_orders_list_to_set. intros o. rewrite !elem_of_list_to_set.
    csimpl. rewrite !elem_of_cons. tauto. }
  split; [done|].
  destruct (full_coverage_iff_count _ _ Hsub) as [_ Hiff].
  apply Hiff. vm_compute. reflexivity.
Defined.

Lemma insert_by_time_sorted r l :
  StronglySorted time_le l → StronglySorted time_le (insert_by_time r l).
Proof.
  induction 1 as [|r' l Hl IH Hall]; simpl.
  - repeat constructor.
  - destruct (np.leb (Total_Time r) (Total_Time r')) eqn:Hle.
    + constructor; [by constructor|]. constructor; [done|].
      eapply Forall_impl; [exact Hall|]. intros a Ha.
      by eapply np_leb_trans.
    + constructor; [done|].
      rewrite insert_by_time_Permutation. constructor; [|done].
      destruct (np_leb_total (Total_Time r') (Total_Time r)); [done|].
      unfold time_le in *. congruence.
Qed.

Lemma sort_values_StronglySorted (df : list ValidCombos.ranked) :
  StronglySorted time_le (sort_values df).
Proof.
  induction df as [|r df IH]; simpl; [constructor|].
  by apply insert_by_time_sorted.
Qed.

(** X12.  [sort_values] returns the rows of the frame, each once, in
    ascending order of total time. *)
Theorem sort_values_sorted (df : list ValidCombos.ranked) :
  sort_values df ≡ₚ df ∧ StronglySorted time_le (sort_values df).
Proof.
  split; [apply sort_values_Permutation|apply sort_values_StronglySorted].
Qed.

Lemma first_smallest_sorted r rest :
  Forall (time_le r) rest → first_smallest r rest = r.
Proof.
  induction 1 as [|r' rest Hle _ IH]; simpl; [done|].
  unfold np.ltb. unfold time_le in Hle. by rewrite Hle.
Qed.

Lemma nsmallest_1_sorted df :
  StronglySorted time_le df → nsmallest_1 df = take 1 df.
Proof.
  destruct 1 as [|r rest _ Hall]; simpl; [done|].
  by rewrite first_smallest_sorted, take_0.
Qed.

Lemma filter_StronglySorted {A} (R : A → A → Prop) (P : A → Prop)
    `{!∀ x, Decision (P x)} (l : list A) :
  StronglySorted R l → StronglySorted R (filter P l).
Proof.
  induction 1 as [|a l Hl IH Hall]; [constructor|].
  rewrite filter_cons. case_decide; [|done].
  constructor; [done|]. apply Forall_forall.
  intros b [_ Hb]%list_elem_of_filter. rewrite Forall_forall in Hall. auto.
Qed.

Lemma max_list_Permutation (l k : list nat) :
  l ≡ₚ k → max_list l = max_list k.
Proof. induction 1; simpl; lia. Qed.

(** X13.  On a frame in ascending order of total time [nsmallest] has
    nothing left to do: the selected row is the first row of the frame
    that qualifies -- the first fully covering row, or else the first row
    with the largest order count. *)
Theorem final_output_first_of_sorted (df : list ValidCombos.ranked) :
  StronglySorted time_le df →
  final_output df
  = if existsb ValidCombos.contains_all_orders df then
      take 1 (filter (λ r, ValidCombos.contains_all_orders r = true) df)
    else
      take 1 (filter (λ r, ValidCombos.count r
                           = max_list (ValidCombos.count <$> df)) df).
Proof.
  intros Hsorted. unfold final_output.
  destruct (existsb _ df); apply nsmallest_1_sorted;
    by apply filter_StronglySorted.
Qed.

Lemma final_output_first_of_sorted_witness :
  ∃ frame,
    valid_combos_frame two_orders one_drone = Ok frame
    ∧ StronglySorted time_le (sort_values (rank (list_to_set [1; 2]) frame))
    ∧ final_output (sort_values (rank (list_to_set [1; 2]) frame))
      = take 1 (filter (λ r, ValidCombos.contains_all_orders r = true)
                       (sort_values (rank (list_to_set [1; 2]) frame))).
Proof.
  assert (∃ frame, valid_combos_frame two_orders one_drone = Ok frame
            ∧ existsb ValidCombos.contains_all_orders
                (sort_values (rank (list_to_set [1; 2]) frame)) = true)
    as (frame & Hframe & Hany) by (vm_compute; eauto).
  pose proof (sort_values_StronglySorted (rank (list_to_set [1; 2]) frame))
    as Hsorted.
  exists frame. split_and!; [done..|].
  by rewrite (final_output_first_of_sorted _ Hsorted), Hany.
Defined.

(** X14.  Over a frame whose combinations use known orders only, the two
    branches of the selection agree: the selected row is always the row
    of least total time among the rows with the largest order count. *)
Theorem selection_by_count_alone (all_order_ids : gset nat)
    (frame : list ValidCombos.row) :
  (∀ a, a ∈ frame →
     combo_orders (ValidCombos.Valid_combinations a) ⊆ all_order_ids) →
  final_output (sort_values (rank all_order_ids frame))
  = nsmallest_1
      (filter (λ r, ValidCombos.count r
                    = max_list (ValidCombos.count
                                  <$> sort_values (rank all_order_ids frame)))
              (sort_values (rank all_order_ids frame))).
Proof.
  intros Hknown. set (df := sort_values (rank all_order_ids frame)).
  unfold final_output.
  destruct (existsb ValidCombos.contains_all_orders df) eqn:Hany; [|done].
  apply existsb_exists in Hany as (r0 & Hr0%list_elem_of_In & Hfull).
  apply elem_of_sort_rank in Hr0 as (a0 & Ha0 & ->). simpl in Hfull.
  apply bool_decide_eq_true in Hfull.
  assert (max_list (ValidCombos.count <$> df) = size all_order_ids) as ->.
  { apply Nat.le_antisymm.
    - assert (max_list (ValidCombos.count <$> df) ∈ ValidCombos.count <$> df)
        as (r & -> & (a & Ha & ->)%elem_of_sort_rank)%list_elem_of_fmap.
      { apply max_list_elem_of. intros Hnil%fmap_nil_inv.
        assert (rank_row all_order_ids a0 ∈ df) as Hin
          by (apply elem_of_sort_rank; eauto).
        rewrite Hnil in Hin. by apply elem_of_nil in Hin. }
      simpl. unfold count_orders. apply subseteq_size. by apply Hknown.
    - apply max_list_elem_of_le, list_elem_of_fmap.
      exists (rank_row all_order_ids a0). split.
      + simpl. unfold count_orders. by rewrite Hfull.
      + apply elem_of_sort_rank; eauto. }
  f_equal. apply list_filter_ext_in.
  intros r (a & Ha & ->)%elem_of_sort_rank. simpl.
  unfold check_all_orders_present, count_orders.
  rewrite bool_decide_eq_true. split; [by intros ->|].
  intros Hsize. apply set_subseteq_size_eq; [by apply Hknown|lia].
Qed.

Lemma selection_by_count_alone_witness :
  ∃ frame,
    valid_combos_frame two_orders one_drone = Ok frame
    ∧ (∀ a, a ∈ frame →
         combo_orders (ValidCombos.Valid_combinations a)
         ⊆ list_to_set [1; 2])
    ∧ final_output (sort_values (rank (list_to_set [1; 2]) frame))
      = nsmallest_1
          (filter (λ r, ValidCombos.count r
                        = max_list (ValidCombos.count
                            <$> sort_values (rank (list_to_set [1; 2]) frame)))
                  (sort_values (rank (list_to_set [1; 2]) frame))).
Proof.
  assert (∃ frame, valid_combos_frame two_orders one_drone = Ok frame
            ∧ Forall (λ a, combo_orders (ValidCombos.Valid_combinations a)
                           ⊆ (list_to_set [1; 2] : gset nat)) frame)
    as (frame & Hframe & Hknown).
  { vm_compute valid_combos_frame. eexists. split; [reflexivity|].
    repeat constructor; cbn [ValidCombos.Valid_combinations];
      rewrite combo_orders_list_to_set; intros o;
      rewrite !elem_of_list_to_set; csimpl; rewrite ?elem_of_cons; tauto. }
  rewrite Forall_forall in Hknown.
  exists frame. split_and!; [done..|].
  apply (selection_by_count_alone _ frame Hknown).
Defined.

(** ** Feasible routes *)

Lemma row_checks odf ddf od row d :
  NoDup (Drones.Drone_ID <$> ddf) →
  order_data_df odf ddf = Ok od → row ∈ od → d ∈ ddf →
  OrderData.drone_columns row !! Drones.Drone_ID d
  = Some (check_drone (OrderData.weight row) (OrderData.total_distance row)
            (OrderData.time row) (OrderData.cumulative_distance row) d).
Proof.
  intros Hnd Hod Hrow Hd.
  destruct (mapM_Ok_elem_of _ _ _ _ Hod Hrow) as (route & _ & Hrow').
  apply dist_data_row_Ok in Hrow' as (dl & rel & cum & td & _ & _ & _ & _ & ->).
  simpl. by apply drone_columns_of_lookup_elem.
Qed.

Lemma valid_combos_complete od k valid row c :
  valid_combos od k = Ok valid → row ∈ od →
  OrderData.drone_columns row !! k = Some c →
  OrderData.overall_check c = true →
  OrderData.Order_Combos row ∈ valid.
Proof.
  unfold valid_combos. destruct od as [|r0 od]; [done|].
  generalize (r0 :: od). clear r0 od. intros od.
  intros (flagged & Hflagged%mapM_Ok & [= <-])%bind_Ok
    (i & Hi)%list_elem_of_lookup Hc Hoverall.
  destruct (Forall2_lookup_l _ _ _ _ _ Hflagged Hi) as ([row' b] & Hp & Hb).
  unfold overall_of in Hb. rewrite Hc in Hb. simpl in Hb.
  injection Hb as <- <-.
  apply list_elem_of_fmap. exists (row, OrderData.overall_check c).
  split; [done|]. apply list_elem_of_filter. split; [done|].
  by eapply list_elem_of_lookup_2.
Qed.

(** X15.  A drone's candidate routes are exactly the generated routes
    that pass its three checks: weight within the payload, round trip
    within the range, and the deadline check at its speed. *)
Theorem feasible_routes_spec fleet odf ddf od d valid route :
  drones_df fleet = Ok ddf →
  order_data_df odf ddf = Ok od →
  d ∈ ddf →
  valid_combos od (Drones.Drone_ID d) = Ok valid →
  route ∈ valid ↔
  ∃ row, row ∈ od ∧ OrderData.Order_Combos row = route
    ∧ (OrderData.weight row ≤ Drones.max_payload d)%Z
    ∧ (OrderData.total_distance row ≤ Drones.max_dist d)%Z
    ∧ delivery_time_check_of (OrderData.time row)
        (OrderData.cumulative_distance row) (Drones.speed d) = true.
Proof.
  intros Hnd%drones_df_NoDup Hod Hd Hvalid. split.
  - intros Hroute.
    destruct (valid_combos_Ok _ _ _ Hvalid route Hroute)
      as (row & c & Hrow & <- & Hc & Hoverall).
    rewrite (row_checks _ _ _ _ _ Hnd Hod Hrow Hd) in Hc.
    injection Hc as <-. simpl in Hoverall.
    apply andb_true_iff in Hoverall as [[Hw Hdist]%andb_true_iff Htime].
    apply bool_decide_eq_true in Hw, Hdist. by exists row.
  - intros (row & Hrow & <- & Hw & Hdist & Htime).
    eapply valid_combos_complete; [done..|by eapply row_checks|].
    simpl. rewrite Htime, !bool_decide_eq_true_2 by done. done.
Qed.

Lemma feasible_routes_spec_witness :
  ∃ ddf od d valid,
    drones_df weak_drone = Ok ddf
    ∧ order_data_df (orders_df two_orders) ddf = Ok od
    ∧ d ∈ ddf
    ∧ valid_combos od (Drones.Drone_ID d) = Ok valid
    ∧ [1] ∈ valid.
Proof.
  assert (∃ ddf, drones_df weak_drone = Ok ddf) as [ddf Hddf]
    by (vm_compute; eauto).
  assert (∃ od d valid row,
            order_data_df (orders_df two_orders) ddf = Ok od
            ∧ ddf !! 0 = Some d
            ∧ valid_combos od (Drones.Drone_ID d) = Ok valid
            ∧ od !! 0 = Some row
            ∧ OrderData.Order_Combos row = [1]
            ∧ (OrderData.weight row ≤ Drones.max_payload d)%Z
            ∧ (OrderData.total_distance row ≤ Drones.max_dist d)%Z
            ∧ delivery_time_check_of (OrderData.time row)
                (OrderData.cumulative_distance row) (Drones.speed d) = true)
    as (od & d & valid & row & Hod & Hd%list_elem_of_lookup_2 & Hvalid
        & Hrow%list_elem_of_lookup_2 & Hroute & Hw & Hdist & Htime).
  { injection Hddf as <-. vm_compute. eexists _, _, _, _.
    repeat (split; [reflexivity|]). split; [discriminate|].
    split; [discriminate|reflexivity]. }
  exists ddf, od, d, valid. split_and!; [done..|].
  apply (feasible_routes_spec weak_drone _ ddf od d valid [1] Hddf Hod Hd Hvalid).
  by exists row.
Defined.

(** ** Total times *)




Lemma valid_combos_df_row od ddf combinations frame row :
  valid_combos_df od ddf combinations = Ok frame → row ∈ frame →
  ∃ combination, combination ∈ combinations
    ∧ valid_combos_row od ddf combination = Ok row.
Proof.
  unfold valid_combos_df. intros (tuples & Htuples & Hframe)%bind_Ok Hrow.
  assert (tuples = combinations) as ->.
  { unfold apply_tuple in Htuples.
    destruct (length ddf), combinations; by simplify_eq. }
  destruct (mapM_Ok_elem_of _ _ _ _ Hframe Hrow) as (c & ? & ?). eauto.
Qed.



(** ** When the script returns, and what *)


Lemma numbered_fleet_names (g : nat → nat) (fleet : list json.drone) :
  Drones.id <$>
    filter (λ d, Drones.available d = true)
      (imap (λ i d, {| Drones.Drone_ID := g i;
                       Drones.id := json.drone_id d;
                       Drones.max_payload := json.max_payload d;
                       Drones.max_dist := json.max_distance d;
                       Drones.speed := json.speed d;
                       Drones.available := json.available d |}) fleet)
  = json.drone_id <$> filter (λ d, json.available d = true) fleet.
Proof.
  revert g. induction fleet as [|d fleet IH]; intros g; [done|].
  cbn [imap]. rewrite !filter_cons. cbn [Drones.available].
  destruct (decide (json.available d = true)); rewrite ?fmap_cons;
    cbn [Drones.id]; [f_equal|]; apply (IH (g ∘ S)).
Qed.

Lemma drones_df_names fleet ddf :
  drones_df fleet = Ok ddf →
  Drones.id <$> ddf
  = json.drone_id <$> filter (λ d, json.available d = true) fleet.
Proof.
  unfold drones_df. destruct fleet as [|d0 fleet]; [done|].
  generalize (d0 :: fleet). clear. intros fleet [= <-].
  apply (numbered_fleet_names S).
Qed.

Lemma drone_metrics_Placeholder od speed cols :
  drone_metrics od Placeholder speed = Ok cols →
  ValidCombos.total_distance cols = Zero.
Proof. unfold drone_metrics. simpl. by intros [= <-]. Qed.

Lemma final_output_singleton (df : list ValidCombos.ranked) r rest :
  final_output df = r :: rest → rest = [] ∧ r ∈ df.
Proof.
  intros Hr. destruct (final_output_nonempty df) as (r' & Hr' & Hin).
  { by intros ->. }
  rewrite Hr in Hr'. by simplify_eq.
Qed.

(** X18.  When the script returns, the result has one entry per available
    drone, in fleet order and under the drone's own name, and an entry
    without orders has total distance 0. *)
Theorem main_output_shape (data : json.input) (out : list assignment) :
  main data = Ok out →
  drone <$> out
  = json.drone_id
      <$> filter (λ d, json.available d = true) (json.fleet data)
  ∧ Forall (λ a, orders a = [] → total_distance a = 0%Z) out.
Proof.
  unfold main. intros H.
  apply bind_Ok in H as (ddf & Hddf & H).
  apply bind_Ok in H as (od & Hod & H).
  apply bind_Ok in H as (lists & Hlists & H).
  apply bind_Ok in H as (frame & Hframe & H).
  set (odf := orders_df (json.orders data)) in *.
  set (ids := list_to_set (order_ids odf) : gset nat) in *.
  unfold json_dict in H.
  destruct ddf as [|d0 ddf0].
  { injection Hlists as <-. by vm_compute in Hframe. }
  destruct (final_output (sort_values (rank ids frame))) as [|r rest] eqn:Hfinal;
    [done|].
  destruct (final_output_singleton _ _ _ Hfinal)
    as [-> (b & Hb & ->)%elem_of_sort_rank].
  cbv beta iota in H. cbn [ValidCombos.base rank_row] in H.
  remember (d0 :: ddf0) as ddf eqn:Hcons. clear d0 ddf0 Hcons.
  destruct (valid_combos_df_row _ _ _ _ _ Hframe Hb)
    as (combination & Hcomb & Hrow).
  destruct (valid_combinations_known _ _ _ _ Hlists Hcomb) as [Hknown Hlen].
  pose proof (valid_combos_row_Ok _ _ _ _ Hknown Hrow) as Hslots.
  unfold valid_combos_row in Hrow.
  apply bind_Ok in Hrow as (drones & Hdrones & [= <-]).
  cbn [ValidCombos.drones] in *.
  assert (length drones = length ddf) as Hlen'.
  { rewrite (mapM_Ok_length _ _ _ Hdrones), length_zip. lia. }
  apply mapM_Ok in H. split.
  - rewrite <- (drones_df_names _ _ Hddf).
    rewrite <- (fst_zip ddf drones) at 1 by lia.
    rewrite <- list_fmap_compose.
    clear -H. induction H as [|p a ps out Ha _ IH]; [done|].
    rewrite !fmap_cons, IH. f_equal.
    unfold assignment_of in Ha. inv_bind. by subst a.
  - apply Forall_forall. intros a (i & Hi)%list_elem_of_lookup.
    destruct (Forall2_lookup_r _ _ _ _ _ H Hi) as ([d cols] & Hp & Ha).
    assert (cols ∈ drones) as Hcols.
    { eapply elem_of_zip_r, list_elem_of_lookup_2, Hp. }
    rewrite Forall_forall in Hslots. specialize (Hslots cols Hcols).
    destruct (mapM_Ok_elem_of _ _ _ _ Hdrones Hcols) as ([s d'] & _ & Hm).
    pose proof (drone_metrics_combo _ _ _ _ Hm) as Hs. simpl in Hm, Hs.
    unfold assignment_of in Ha. simpl in Ha.
    destruct (ValidCombos.combo cols) as [|c] eqn:Hcombo.
    + subst s. apply drone_metrics_Placeholder in Hm.
      simpl in Ha. injection Ha as <-. simpl. by rewrite Hm.
    + apply bind_Ok in Ha as (names & Hnames & [= <-]). simpl.
      intros ->. apply mapM_Ok_length in Hnames. simpl in Hnames.
      destruct Hslots as (row & Hrow & Hroute).
      destruct (order_data_df_row _ _ _ _ Hod Hrow) as (Hne & _).
      rewrite Hroute in Hne. by destruct c.
Qed.

Lemma main_output_shape_witness :
  ∃ out,
    main {| json.orders := two_orders;
            json.fleet := grounded_fleet ++ stalled_drone |} = Ok out
    ∧ drone <$> out = ["drone"].
Proof.
  assert (∃ out, main {| json.orders := two_orders;
                         json.fleet := grounded_fleet ++ stalled_drone |}
                 = Ok out) as [out Hout] by (vm_compute; eauto).
  exists out. split; [done|].
  by destruct (main_output_shape _ _ Hout) as [-> _].
Defined.


(** ** Routes flown backwards, routes extended, deadlines in integers *)



Lemma legs_app prev l k :
  legs prev (l ++ k) = legs prev l ++ legs (default prev (last l)) k.
Proof.
  revert prev. induction l as [|p l IH]; intros prev; simpl; [done|].
  rewrite IH. do 2 f_equal. rewrite last_cons. by destruct (last l).
Qed.

Lemma running_app a l k :
  running a (l ++ k) = running a l ++ running (a + sum_Z l) k.
Proof.
  revert a. induction l as [|r l IH]; intros a; simpl.
  - f_equal. unfold sum_Z. simpl. lia.
  - rewrite IH. do 3 f_equal. rewrite sum_Z_cons. lia.
Qed.





(** X20.  Adding stops at the end of a route leaves the cumulative
    distances of the earlier stops as they were. *)
Theorem cumulative_distance_extend (dist_list more : list (Z * Z)) :
  dist_list ≠ [] →
  ∃ cum cum',
    (relative_distance_of dist_list ≫= cumulative_distance_of) = Ok cum
    ∧ (relative_distance_of (dist_list ++ more) ≫= cumulative_distance_of)
      = Ok (cum ++ cum')
    ∧ length cum = length dist_list.
Proof.
  intros Hne. destruct dist_list as [|p rest]; [done|]. simpl.
  eexists _, _. split; [done|]. split.
  - rewrite legs_app, running_app. rewrite app_comm_cons. done.
  - simpl. by rewrite length_running, length_legs.
Qed.

Lemma cumulative_distance_extend_witness :
  [(3, 4)%Z] ≠ []
  ∧ ∃ cum',
      (relative_distance_of ([(3, 4)] ++ [(0, 4)])%Z
         ≫= cumulative_distance_of)
      = Ok ([7%Z] ++ cum').
Proof.
  assert ([(3, 4)%Z] ≠ []) as Hne by done. split; [done|].
  destruct (cumulative_distance_extend [(3, 4)%Z] [(0, 4)%Z] Hne)
    as (cum & cum' & Hcum & Hext & _).
  injection Hcum as <-. by exists cum'.
Defined.




(** The round trip of a row's coordinates is the row's total distance. *)
Lemma round_trip_row odf ddf combo row :
  dist_data_row odf ddf combo = Ok row →
  round_trip (OrderData.dist_list row) = Ok (OrderData.total_distance row).
Proof.
  intros (dl & rel & cum & td & _ & Hrel & Hcum & Htd & ->)%dist_data_row_Ok.
  simpl. unfold round_trip. by rewrite Hrel, Ok_bind, Hcum, Ok_bind.
Qed.

(** ** The assignment the script writes *)


Lemma loc_order_orders_df {A} orders i (col : Orders.row → A) a :
  loc_order (orders_df orders) i col = Ok a →
  1 ≤ i ≤ length orders
  ∧ ∃ r, r ∈ orders_df orders ∧ Orders.ID r = i ∧ a = col r
         ∧ Orders.id r = order_name orders i.
Proof.
  unfold loc_order.
  destruct (filter _ _) as [|r rest] eqn:Hfilter; [done|]. intros [= <-].
  assert (r ∈ filter (λ r, Orders.ID r = i) (orders_df orders))
    as [Hid Hr]%list_elem_of_filter by (rewrite Hfilter; by left).
  pose proof Hr as (j & o & -> & Ho)%elem_of_lookup_imap.
  simpl in Hid. subst i. pose proof (lookup_lt_Some _ _ _ Ho). split; [lia|].
  eexists. split; [exact Hr|]. split_and!; [done..|].
  unfold order_name. simpl. by rewrite Ho.
Qed.

Lemma order_names_all orders :
  order_name orders <$> seq 1 (length orders) = json.order_id <$> orders.
Proof.
  apply list_eq. intros i. rewrite !list_lookup_fmap.
  destruct (orders !! i) as [o|] eqn:Ho.
  - rewrite lookup_seq_lt by by eapply lookup_lt_Some.
    simpl. unfold order_name. simpl. by rewrite Ho.
  - rewrite lookup_seq_ge; [done|]. by apply lookup_ge_None.
Qed.




(** What a successful run went through: the frames, the valid combination
    that was selected and, drone by drone, the entry written for it. *)
Lemma main_Ok_inv data out :
  main data = Ok out →
  ∃ ddf od lists combination,
    drones_df (json.fleet data) = Ok ddf
    ∧ order_data_df (orders_df (json.orders data)) ddf = Ok od
    ∧ combos_lists od ddf = Ok lists
    ∧ combination ∈ valid_combinations lists
    ∧ length combination = length ddf
    ∧ Forall2 (λ p a,
        drone a = Drones.id p.1
        ∧ mapM (λ order, loc_order (orders_df (json.orders data)) order
                           Orders.id) (slot_orders p.2) = Ok (orders a)
        ∧ ∃ c, get_drone_metrics od p.2 OrderData.total_distance = Ok c
               ∧ total_distance a = cell_value c)
        (zip ddf combination) out.
Proof.
  unfold main. intros H.
  apply bind_Ok in H as (ddf & Hddf & H).
  apply bind_Ok in H as (od & Hod & H).
  apply bind_Ok in H as (lists & Hlists & H).
  apply bind_Ok in H as (frame & Hframe & H).
  set (odf := orders_df (json.orders data)) in *.
  set (ids := list_to_set (order_ids odf) : gset nat) in *.
  unfold json_dict in H.
  destruct ddf as [|d0 ddf0].
  { injection Hlists as <-. by vm_compute in Hframe. }
  destruct (final_output (sort_values (rank ids frame))) as [|r rest] eqn:Hfinal;
    [done|].
  destruct (final_output_singleton _ _ _ Hfinal)
    as [-> (b & Hb & ->)%elem_of_sort_rank].
  cbv beta iota in H. cbn [ValidCombos.base rank_row] in H.
  remember (d0 :: ddf0) as ddf eqn:Hcons. clear d0 ddf0 Hcons.
  destruct (valid_combos_df_row _ _ _ _ _ Hframe Hb)
    as (combination & Hcomb & Hrow).
  destruct (valid_combinations_known _ _ _ _ Hlists Hcomb) as [Hknown Hlen].
  unfold valid_combos_row in Hrow.
  apply bind_Ok in Hrow as (drones & Hdrones & [= <-]).
  cbn [ValidCombos.drones] in *.
  assert (length drones = length ddf) as Hlen'.
  { rewrite (mapM_Ok_length _ _ _ Hdrones), length_zip. lia. }
  apply mapM_Ok in H. apply mapM_Ok in Hdrones.
  exists ddf, od, lists, combination. split_and!; [done..|].
  apply Forall2_same_length_lookup. split.
  { rewrite <- (Forall2_length _ _ _ H), !length_zip. lia. }
  intros i [d s] a [Hd Hs]%lookup_zip_Some Ha. simpl in Hd, Hs.
  assert (zip combination ddf !! i = Some (s, d)) as Hsd
    by by apply lookup_zip_Some.
  destruct (Forall2_lookup_l _ _ _ _ _ Hdrones Hsd) as (cols & Hcols & Hm).
  assert (zip ddf drones !! i = Some (d, cols)) as Hdc
    by by apply lookup_zip_Some.
  destruct (Forall2_lookup_l _ _ _ _ _ H Hdc) as (a' & Ha' & Hasg).
  rewrite Ha in Ha'. injection Ha' as <-.
  pose proof (drone_metrics_combo _ _ _ _ Hm) as Hs'. simpl in Hm, Hs'.
  unfold drone_metrics in Hm. inv_bind. subst cols.
  unfold assignment_of in Hasg. cbn [fst snd ValidCombos.combo] in Hasg.
  apply bind_Ok in Hasg as (names & Hnames & [= <-]). simpl.
  split_and!; [done| |by eauto].
  by destruct s.
Qed.

(** X22.  No order is delivered twice: the order names written over all
    drones form a sub-multiset of the names of the input orders. *)
Theorem main_output_each_order_once (data : json.input)
    (out : list assignment) :
  main data = Ok out →
  out ≫= orders ⊆+ json.order_id <$> json.orders data.
Proof.
  intros (ddf & od & lists & combination & _ & _ & _
          & [Hvalid _]%list_elem_of_filter & Hlen & Hout)%main_Ok_inv.
  apply is_valid_combination_true in Hvalid.
  set (orders0 := json.orders data) in *.
  assert (Forall2 (λ s a, Forall (λ i, 1 ≤ i ≤ length orders0) (slot_orders s)
                          ∧ orders a = order_name orders0 <$> slot_orders s)
                  combination out) as Hnames.
  { apply Forall2_same_length_lookup. split.
    { rewrite <- (Forall2_length _ _ _ Hout), length_zip. lia. }
    intros i s a Hs Ha.
    destruct (lookup_lt_is_Some_2 ddf i) as [d Hd].
    { rewrite <- Hlen. by eapply lookup_lt_Some. }
    assert (zip ddf combination !! i = Some (d, s)) as Hds
      by by apply lookup_zip_Some.
    destruct (Forall2_lookup_l _ _ _ _ _ Hout Hds) as (a' & Ha' & _ & Hm & _).
    rewrite Ha in Ha'. injection Ha' as <-. simpl in Hm.
    apply mapM_Ok in Hm. clear -Hm.
    induction Hm as [|i name ids names Hi _ [IH1 IH2]]; [done|].
    apply loc_order_orders_df in Hi as (Hrange & r & _ & _ & -> & Hname).
    split; [by constructor|]. by rewrite fmap_cons, IH2, Hname. }
  assert (out ≫= orders
          = order_name orders0 <$> (combination ≫= slot_orders)
          ∧ Forall (λ i, 1 ≤ i ≤ length orders0) (combination ≫= slot_orders))
    as [-> Hrange].
  { clear -Hnames.
    induction Hnames as [|s a ss out [Hr Hn] _ [IH1 IH2]]; [done|].
    rewrite !bind_cons, fmap_app, IH1, Hn. split; [done|].
    by apply Forall_app. }
  rewrite <- order_names_all. apply fmap_submseteq.
  apply NoDup_submseteq; [done|]. intros i Hi.
  rewrite Forall_forall in Hrange. specialize (Hrange i Hi).
  apply elem_of_seq. lia.
Qed.

Lemma main_output_each_order_once_witness :
  ∃ out,
    main {| json.orders := two_orders; json.fleet := one_drone ++ one_drone |}
    = Ok out
    ∧ out ≫= orders ⊆+ ["order"; "order"].
Proof.
  assert (∃ out, main {| json.orders := two_orders;
                         json.fleet := one_drone ++ one_drone |} = Ok out)
    as [out Hout] by (vm_compute; eauto).
  exists out. split; [done|].
  apply (main_output_each_order_once _ _ Hout).
Defined.


